(** * Change data capture and replication (cdc_system.py)

    A shallow embedding of the trigger-based change log, its reader
    ([CDCSystem]), the batched replicator ([CDCReplicator]) and the health
    monitor ([CDCMonitor]), together with the properties of the design
    document that can be settled on it.

    The storage engine is SQLite, reached through [SQLiteConnection].  The
    SQL statements the program builds are modelled by what they do to the
    tables they name:
    - the log table [<table>_cdc] is a finite map from [cdc_id] (its
      INTEGER PRIMARY KEY) to the remaining columns of the row;
    - the catalogue (tables, indexes, triggers) is a triple of finite maps
      by name, which is what the [IF NOT EXISTS] clauses consult;
    - the target table is a list of rows, each a finite map from column
      name to value, with one INTEGER PRIMARY KEY column.
    Column affinity, REAL values, NOT NULL / UNIQUE constraints other than
    the primary key, column defaults and the engine's resource limits
    (but for the number of [?] in one statement, see
    [mark_as_synced_call]) are outside the model.  Names are compared
    letter for letter, and the text of a statement is taken to parse;
    the statements that depend on how SQLite reads names say so.
    [CURRENT_TIMESTAMP] is an explicit argument. *)

From Stdlib Require Import ZArith Ascii String List Lia Bool.
From stdpp Require Import base tactics option list numbers strings pretty
  gmap fin_maps fin_sets sorting.

Set Warnings "-register-all".

Open Scope Z_scope.

(** ** Values *)

(** An SQLite value, as far as this program stores and binds them. *)
Inductive sqlval :=
  | SNull
  | SInt (n : Z)
  | SText (s : string).

#[global] Instance sqlval_eq_dec : EqDecision sqlval.
Proof. solve_decision. Defined.

(** What [json.loads] returns: [None], [bool], [int], [str], [list],
    [dict]. *)
Inductive json :=
  | JNull
  | JBool (b : bool)
  | JNum (n : Z)
  | JStr (s : string)
  | JArr (l : list json)
  | JObj (m : gmap string json).

(** Exceptions the modelled code can raise.  [DatabaseError] stands for
    [sqlite3.DatabaseError] and its subclasses ([OperationalError],
    [IntegrityError], ...). *)
Inductive exn :=
  | AttributeError
  | KeyError
  | IndexError
  | JSONDecodeError
  | DatabaseError
  | OverflowError.

#[global] Instance exn_eq_dec : EqDecision exn.
Proof. solve_decision. Defined.

(** A call either raises or returns. *)
Inductive result (A : Type) :=
  | Raise (e : exn)
  | Ok (a : A).
Arguments Raise {A} e.
Arguments Ok {A} a.

#[global] Instance result_ret : MRet result := λ A, Ok.

#[global] Instance result_bind : MBind result := λ A B k r,
  match r with
  | Raise e => Raise e
  | Ok a => k a
  end.

Definition is_ok {A} (r : result A) : bool :=
  match r with Ok _ => true | Raise _ => false end.

(** ** The change log table

    [CREATE TABLE <t>_cdc (cdc_id INTEGER PRIMARY KEY AUTOINCREMENT,
    operation TEXT NOT NULL, record_id INTEGER NOT NULL, old_data TEXT,
    new_data TEXT, changed_at TIMESTAMP DEFAULT CURRENT_TIMESTAMP,
    synced INTEGER DEFAULT 0, sync_timestamp TIMESTAMP)]. *)

Record cdc_row := CdcRow {
  operation : string;
  record_id : sqlval;
  old_data : option string;
  new_data : option string;
  changed_at : Z;
  synced : Z;
  sync_timestamp : option Z
}.

#[global] Instance cdc_row_eq_dec : EqDecision cdc_row.
Proof. solve_decision. Defined.

(** The rows of the log table, keyed by [cdc_id]. *)
Abbreviation cdc_table := (gmap Z cdc_row).

(** [WHERE synced = 0]. *)
Definition is_pending (r : cdc_row) : Prop := synced r = 0.

#[global] Instance is_pending_dec r : Decision (is_pending r).
Proof. unfold is_pending. apply _. Defined.

(** The keys selected by [WHERE synced = 0 ORDER BY cdc_id]. *)
Definition pending_ids (t : cdc_table) : list Z :=
  merge_sort Z.le (map_to_list (filter (λ kr, is_pending kr.2) t)).*1.

(** [LIMIT n]: SQLite reads a negative limit as no upper bound. *)
Definition sql_limit {A} (n : Z) (l : list A) : list A :=
  if n <? 0 then l else take (Z.to_nat n) l.

(** The [LIMIT] clause of the query text: [if limit: query += ...]
    appends it only when [limit] is truthy, that is neither [None] nor
    [0]. *)
Definition limit_clause (limit : option Z) : option Z :=
  match limit with
  | None => None
  | Some n => if n =? 0 then None else Some n
  end.

(** [SELECT * FROM <t>_cdc WHERE synced = 0 ORDER BY cdc_id [LIMIT n]]. *)
Definition select_pending (clause : option Z) (t : cdc_table)
  : list (Z * cdc_row) :=
  let ids := pending_ids t in
  let ids := match clause with Some n => sql_limit n ids | None => ids end in
  omap (λ id, pair id <$> t !! id) ids.

(** The dictionary [get_pending_changes] returns for one row. *)
Record change := Change {
  ch_cdc_id : Z;
  ch_operation : string;
  ch_record_id : sqlval;
  ch_old_data : json;
  ch_new_data : json;
  ch_changed_at : Z;
  ch_synced : Z;
  ch_sync_timestamp : option Z
}.

Section Core.

(** [json.loads]; [None] stands for [json.JSONDecodeError]. *)
Variable json_loads : string → option json.

(** [if change.get(col): change[col] = json.loads(change[col])]: a NULL
    column stays [None], an empty text stays the empty string, anything
    else is decoded. *)
Definition loads_column (x : option string) : result json :=
  match x with
  | None => Ok JNull
  | Some s =>
      if decide (s = "") then Ok (JStr "")
      else match json_loads s with
           | Some v => Ok v
           | None => Raise JSONDecodeError
           end
  end.

Definition decode_row (kr : Z * cdc_row) : result change :=
  o ← loads_column (old_data kr.2) ;
  n ← loads_column (new_data kr.2) ;
  Ok {| ch_cdc_id := kr.1;
        ch_operation := operation kr.2;
        ch_record_id := record_id kr.2;
        ch_old_data := o;
        ch_new_data := n;
        ch_changed_at := changed_at kr.2;
        ch_synced := synced kr.2;
        ch_sync_timestamp := sync_timestamp kr.2 |}.

Fixpoint decode_rows (rows : list (Z * cdc_row)) : result (list change) :=
  match rows with
  | [] => Ok []
  | kr :: rows' =>
      c ← decode_row kr ;
      cs ← decode_rows rows' ;
      Ok (c :: cs)
  end.

(** [CDCSystem.get_pending_changes]. *)
Definition get_pending_changes (limit : option Z) (t : cdc_table)
  : result (list change) :=
  decode_rows (select_pending (limit_clause limit) t).

End Core.

(** [SET synced = 1, sync_timestamp = CURRENT_TIMESTAMP]. *)
Definition set_synced (now : Z) (r : cdc_row) : cdc_row :=
  {| operation := operation r;
     record_id := record_id r;
     old_data := old_data r;
     new_data := new_data r;
     changed_at := changed_at r;
     synced := 1;
     sync_timestamp := Some now |}.

(** [UPDATE <t>_cdc SET ... WHERE cdc_id IN (ids)]. *)
Definition update_synced (now : Z) (ids : list Z) (t : cdc_table) : cdc_table :=
  map_imap (λ id r, Some (if decide (id ∈ ids) then set_synced now r else r)) t.

(** [CDCSystem.mark_as_synced], the log it leaves when it returns: it
    returns at once on an empty list.  Whether the call returns is
    [mark_as_synced_call] below; it does for ids that are keys of the
    log, up to the engine's limit on the number of [?]. *)
Definition mark_as_synced (now : Z) (cdc_ids : list Z) (t : cdc_table)
  : cdc_table :=
  match cdc_ids with
  | [] => t
  | _ => update_synced now cdc_ids t
  end.

(** A Python [int] bound to a [?] must fit SQLite's 64-bit INTEGER. *)
Definition int64_id (id : Z) : Prop := - 2 ^ 63 ≤ id < 2 ^ 63.

#[global] Instance int64_id_dec id : Decision (int64_id id).
Proof. unfold int64_id. apply _. Defined.

(** [CDCSystem.mark_as_synced] as a call.  The statement has one [?] per
    id: with more of them than the engine allows
    ([max_variable_number], SQLITE_MAX_VARIABLE_NUMBER: 999 before
    SQLite 3.32, 32766 since) preparing it fails with
    [sqlite3.OperationalError]; then [tuple(cdc_ids)] is bound, and an id
    outside 64 bits raises [OverflowError].  In both cases the UPDATE has
    not run and the log is as it was. *)
Definition mark_as_synced_call (max_variable_number : Z) (now : Z)
    (cdc_ids : list Z) (t : cdc_table) : result cdc_table :=
  match cdc_ids with
  | [] => Ok t
  | _ =>
      if decide (max_variable_number < Z.of_nat (length cdc_ids))
      then Raise DatabaseError
      else if decide (Forall int64_id cdc_ids)
      then Ok (update_synced now cdc_ids t)
      else Raise OverflowError
  end.

(** The ids of a call that the database can bind. *)
Definition bindable (max_variable_number : Z) (cdc_ids : list Z) : Prop :=
  Z.of_nat (length cdc_ids) ≤ max_variable_number ∧ Forall int64_id cdc_ids.

(** One entry of the dictionary of [get_change_statistics]. *)
Record stats_entry := StatsEntry {
  st_total : Z;
  st_pending : Z;
  st_synced : Z
}.

#[global] Instance stats_entry_eq_dec : EqDecision stats_entry.
Proof. solve_decision. Defined.

Definition rows_of (t : cdc_table) : list cdc_row := (map_to_list t).*2.

(** [COUNT( * )] and the two [SUM(CASE ...)] columns of one group. *)
Definition count_rows (P : cdc_row → Prop) `{∀ r, Decision (P r)}
    (rows : list cdc_row) : Z :=
  Z.of_nat (length (filter P rows)).

Definition aggregate (op : string) (rows : list cdc_row) : stats_entry :=
  {| st_total := count_rows (λ r, operation r = op) rows;
     st_pending := count_rows (λ r, operation r = op ∧ synced r = 0) rows;
     st_synced := count_rows (λ r, operation r = op ∧ synced r = 1) rows |}.

(** [SELECT operation, COUNT( * ), SUM(...), SUM(...) FROM <t>_cdc GROUP BY
    operation]: one result row per operation that occurs. *)
Definition select_statistics (t : cdc_table) : list (string * stats_entry) :=
  let rows := rows_of t in
  let ops : gset string := list_to_set (operation <$> rows) in
  (λ op, (op, aggregate op rows)) <$> elements ops.

(** [CDCSystem.get_change_statistics]: [stats[row['operation']] = ...] for
    each result row. *)
Definition get_change_statistics (t : cdc_table) : gmap string stats_entry :=
  foldl (λ stats row, <[row.1 := row.2]> stats) ∅ (select_statistics t).

(** [CDCMonitor.get_health_report]. *)
Record report := Report {
  rep_timestamp : Z;
  rep_table : string;
  total_changes : Z;
  pending_changes : Z;
  synced_changes : Z;
  by_operation : gmap string stats_entry;
  health_status : string
}.

(** [sum(f(s) for s in stats.values())]. *)
Definition sum_values (f : stats_entry → Z) (stats : gmap string stats_entry)
  : Z :=
  foldr (λ s acc, f s + acc) 0 (map_to_list stats).*2.

Definition get_health_report (now : Z) (table_name : string) (t : cdc_table)
  : report :=
  let stats := get_change_statistics t in
  let total_pending := sum_values st_pending stats in
  let total_synced := sum_values st_synced stats in
  {| rep_timestamp := now;
     rep_table := table_name;
     total_changes := total_pending + total_synced;
     pending_changes := total_pending;
     synced_changes := total_synced;
     by_operation := stats;
     health_status := if total_pending <? 1000 then "healthy" else "warning" |}.

(** ** The catalogue and [setup_trigger_based_cdc] *)

(** [NEW.col] or [OLD.col] inside a trigger body. *)
Inductive row_ref := NEW | OLD.

#[global] Instance row_ref_eq_dec : EqDecision row_ref.
Proof. solve_decision. Defined.

Inductive dml_event := AfterInsert | AfterUpdate | AfterDelete.

#[global] Instance dml_event_eq_dec : EqDecision dml_event.
Proof. solve_decision. Defined.

(** The body of a capture trigger: [INSERT INTO <into> (operation,
    record_id, old_data, new_data) VALUES ('<op>', <ref>.<col>,
    json_object('c', OLD.c, ...), json_object('c', NEW.c, ...))]; a column
    list that is [None] is a column left out of the INSERT. *)
Record trigger := Trigger {
  trg_event : dml_event;
  trg_on : string;
  trg_into : string;
  trg_operation : string;
  trg_record_id : row_ref * string;
  trg_old_json : option (list string);
  trg_new_json : option (list string)
}.

#[global] Instance trigger_eq_dec : EqDecision trigger.
Proof. solve_decision. Defined.

(** The schema, as far as the program names its objects: the engine's
    own tables ([sqlite_master], and [sqlite_sequence], which the first
    AUTOINCREMENT column brings) are not listed. *)
Record catalog := Catalog {
  cat_tables : gmap string (list string);
  cat_indexes : gmap string (string * list string);
  cat_triggers : gmap string trigger
}.

#[global] Instance catalog_eq_dec : EqDecision catalog.
Proof. solve_decision. Defined.

(** The three statements of the setup, each with [IF NOT EXISTS]. *)
Inductive ddl :=
  | CreateTable (name : string) (columns : list string)
  | CreateIndex (name : string) (on : string) (columns : list string)
  | CreateTrigger (name : string) (body : trigger).

(** What SQLite does with them once it has parsed them.  A table and an
    index cannot share a name; an index or a trigger needs its table, an
    index its columns; with [IF NOT EXISTS] an object of the same kind
    and name makes the statement do nothing.

    The code splices the table and column names into the statement text
    unquoted.  A name that is not a plain identifier (a reserved word
    such as [order], a name with a space or a quote, the prefix
    [sqlite_]) makes SQLite reject the text before any of the checks
    below, the same way at every call; this is not modelled here.  The
    statements that say a setup returns are made for plain names only
    ([plain_identifier] below). *)
Definition execute_ddl (s : ddl) (c : catalog) : result catalog :=
  match s with
  | CreateTable name cols =>
      if decide (is_Some (cat_tables c !! name)) then Ok c
      else if decide (is_Some (cat_indexes c !! name)) then Raise DatabaseError
      else Ok {| cat_tables := <[name := cols]> (cat_tables c);
                 cat_indexes := cat_indexes c;
                 cat_triggers := cat_triggers c |}
  | CreateIndex name on cols =>
      match cat_tables c !! on with
      | None => Raise DatabaseError
      | Some tcols =>
          if decide (is_Some (cat_tables c !! name)) then Raise DatabaseError
          else if decide (is_Some (cat_indexes c !! name)) then Ok c
          else if decide (cols ⊆ tcols) then
            Ok {| cat_tables := cat_tables c;
                  cat_indexes := <[name := (on, cols)]> (cat_indexes c);
                  cat_triggers := cat_triggers c |}
          else Raise DatabaseError
      end
  | CreateTrigger name body =>
      match cat_tables c !! trg_on body with
      | None => Raise DatabaseError
      | Some _ =>
          if decide (is_Some (cat_triggers c !! name)) then Ok c
          else Ok {| cat_tables := cat_tables c;
                     cat_indexes := cat_indexes c;
                     cat_triggers := <[name := body]> (cat_triggers c) |}
      end
  end.

(** Calls on the source connection: the catalogue is threaded through,
    and an exception leaves it as the statements before it made it. *)
Record conn (A : Type) := Conn { run : catalog → catalog * result A }.
Arguments Conn {A} _.
Arguments run {A} _ _.

#[global] Instance conn_ret : MRet conn := λ A a, Conn (λ c, (c, Ok a)).

#[global] Instance conn_bind : MBind conn := λ A B k m,
  Conn (λ c, match run m c with
             | (c', Ok a) => run (k a) c'
             | (c', Raise e) => (c', Raise e)
             end).

Definition raise {A} (e : exn) : conn A := Conn (λ c, (c, Raise e)).

(** [self.db.execute(...)]: a failing statement changes nothing. *)
Definition execute (s : ddl) : conn unit :=
  Conn (λ c, match execute_ddl s c with
             | Ok c' => (c', Ok ())
             | Raise e => (c, Raise e)
             end).

(** [self.db.commit()]: the statements above are not inside a transaction
    (the sqlite3 module opens one only before INSERT, UPDATE and DELETE),
    so there is nothing to make durable. *)
Definition commit : conn unit := mret ().

(** [columns[0]]. *)
Definition first_column (columns : list string) : conn string :=
  match columns with
  | [] => raise IndexError
  | c :: _ => mret c
  end.

Definition cdc_table_name (table_name : string) : string :=
  table_name +:+ "_cdc".

Definition cdc_columns : list string :=
  ["cdc_id"; "operation"; "record_id"; "old_data"; "new_data";
   "changed_at"; "synced"; "sync_timestamp"].

Definition _create_insert_trigger (table_name : string)
    (columns : list string) : conn unit :=
  c0 ← first_column columns;
  execute (CreateTrigger (table_name +:+ "_insert_trigger")
    {| trg_event := AfterInsert; trg_on := table_name;
       trg_into := cdc_table_name table_name;
       trg_operation := "INSERT"; trg_record_id := (NEW, c0);
       trg_old_json := None; trg_new_json := Some columns |});;
  commit.

Definition _create_update_trigger (table_name : string)
    (columns : list string) : conn unit :=
  c0 ← first_column columns;
  execute (CreateTrigger (table_name +:+ "_update_trigger")
    {| trg_event := AfterUpdate; trg_on := table_name;
       trg_into := cdc_table_name table_name;
       trg_operation := "UPDATE"; trg_record_id := (NEW, c0);
       trg_old_json := Some columns; trg_new_json := Some columns |});;
  commit.

Definition _create_delete_trigger (table_name : string)
    (columns : list string) : conn unit :=
  c0 ← first_column columns;
  execute (CreateTrigger (table_name +:+ "_delete_trigger")
    {| trg_event := AfterDelete; trg_on := table_name;
       trg_into := cdc_table_name table_name;
       trg_operation := "DELETE"; trg_record_id := (OLD, c0);
       trg_old_json := Some columns; trg_new_json := None |});;
  commit.

(** [CDCSystem.setup_trigger_based_cdc]. *)
Definition setup_trigger_based_cdc (table_name : string)
    (columns : list string) : conn unit :=
  execute (CreateTable (cdc_table_name table_name) cdc_columns);;
  execute (CreateIndex ("idx_" +:+ cdc_table_name table_name +:+ "_synced")
             (cdc_table_name table_name) ["synced"; "cdc_id"]);;
  commit;;
  _create_insert_trigger table_name columns;;
  _create_update_trigger table_name columns;;
  _create_delete_trigger table_name columns.

(** ** Capture: what an installed trigger does when it fires *)

(** A row of the source or target table: column name to value. *)
Abbreviation row := (gmap string sqlval).

(** The source mutation a trigger fires after, with the row images SQLite
    binds to [OLD] and [NEW]. *)
Inductive mutation :=
  | Inserted (new : row)
  | Updated (old new : row)
  | Deleted (old : row).

Definition event_of (m : mutation) : dml_event :=
  match m with
  | Inserted _ => AfterInsert
  | Updated _ _ => AfterUpdate
  | Deleted _ => AfterDelete
  end.

Definition image (m : mutation) (ref : row_ref) : option row :=
  match m, ref with
  | Inserted n, NEW | Updated _ n, NEW => Some n
  | Updated o _, OLD | Deleted o, OLD => Some o
  | _, _ => None
  end.

(** The log table with the counter AUTOINCREMENT keeps in
    [sqlite_sequence]. *)
Record source_db := SourceDb {
  cdc_rows : cdc_table;
  cdc_seq : Z
}.

Definition max_key (t : cdc_table) : Z := foldr Z.max 0 (map_to_list t).*1.

(** AUTOINCREMENT: one more than the largest key ever used. *)
Definition next_cdc_id (s : source_db) : Z :=
  Z.max (cdc_seq s) (max_key (cdc_rows s)) + 1.

Section Capture.

(** SQLite's [json_object], applied to labels and values. *)
Variable json_object : list (string * sqlval) → string.

(** [<ref>.<col>]; an unknown column is an error. *)
Definition column_value (m : mutation) (ref : row_ref) (col : string)
  : result sqlval :=
  match image m ref with
  | None => Raise DatabaseError
  | Some r =>
      match r !! col with
      | None => Raise DatabaseError
      | Some v => Ok v
      end
  end.

Fixpoint json_fields (m : mutation) (ref : row_ref) (cols : list string)
  : result (list (string * sqlval)) :=
  match cols with
  | [] => Ok []
  | c :: cols' =>
      v ← column_value m ref c;
      rest ← json_fields m ref cols';
      Ok ((c, v) :: rest)
  end.

Definition json_column (m : mutation) (ref : row_ref)
    (cols : option (list string)) : result (option string) :=
  match cols with
  | None => Ok None
  | Some cs => fs ← json_fields m ref cs; Ok (Some (json_object fs))
  end.

(** The INSERT a trigger body runs.  [record_id] is NOT NULL; [changed_at]
    and [synced] take their defaults. *)
Definition fire_trigger (trg : trigger) (m : mutation) (now : Z)
    (s : source_db) : result source_db :=
  rid ← column_value m (trg_record_id trg).1 (trg_record_id trg).2;
  old ← json_column m OLD (trg_old_json trg);
  new ← json_column m NEW (trg_new_json trg);
  if decide (rid = SNull) then Raise DatabaseError
  else
    let id := next_cdc_id s in
    Ok {| cdc_rows :=
            <[id := {| operation := trg_operation trg;
                       record_id := rid;
                       old_data := old;
                       new_data := new;
                       changed_at := now;
                       synced := 0;
                       sync_timestamp := None |}]> (cdc_rows s);
          cdc_seq := id |}.

End Capture.

(** ** The target table and the three apply operations *)

Record table := Table {
  t_columns : list string;
  t_pk : string;
  t_rows : list row
}.

#[global] Instance table_eq_dec : EqDecision table.
Proof. solve_decision. Defined.

(** Value of a column in a row; a column the row does not hold is NULL. *)
Definition col (r : row) (c : string) : sqlval := default SNull (r !! c).

(** SQL [=] in a WHERE clause: never true on NULL. *)
Definition sql_eq (a b : sqlval) : bool :=
  match a, b with
  | SNull, _ | _, SNull => false
  | _, _ => bool_decide (a = b)
  end.

(** Binding a Python value to a [?]: [None], [bool], [int] (64 bits) and
    [str] are supported, [list] and [dict] are not. *)
Definition bind_param (v : json) : option sqlval :=
  match v with
  | JNull => Some SNull
  | JBool b => Some (SInt (if b then 1 else 0))
  | JNum n =>
      if decide (- 2 ^ 63 ≤ n < 2 ^ 63) then Some (SInt n) else None
  | JStr s => Some (SText s)
  | JArr _ | JObj _ => None
  end.

Definition bind_params (m : gmap string json) : result row :=
  if decide (map_Forall (λ _ v, is_Some (bind_param v)) m)
  then Ok (omap bind_param m)
  else Raise DatabaseError.

(** The statements the replicator sends, with the columns they name and
    the Python values bound to their [?]. *)
Inductive dml :=
  | InsertOrReplace (values : gmap string json)
  | UpdateWhereId (assignments : gmap string json) (id : json)
  | DeleteWhereId (id : sqlval).

(** The columns a statement names are columns of the table, letter for
    letter.  SQLite compares names without regard to ASCII letter case
    and also knows [rowid], [oid] and [_rowid_] in every such table, so
    this is sufficient for the engine to resolve the names, not
    necessary: where [execute_dml] below raises for a name that differs
    from a column in letter case only, or is one of the three, the
    engine goes on.  The statements about rejected names use
    [no_such_column] below. *)
Definition known_columns (t : table) (cols : gset string) : Prop :=
  ∀ c, c ∈ cols → c ∈ t_columns t.

#[global] Instance known_columns_dec t cols : Decision (known_columns t cols).
Proof.
  refine (cast_if (decide (Forall (λ c, c ∈ t_columns t) (elements cols))));
    unfold known_columns; rewrite Forall_forall in *; set_solver.
Defined.

(** The integer keys in use. *)
Definition rowids (t : table) : list Z :=
  omap (λ r, match col r (t_pk t) with
             | SInt k => Some k
             | _ => None
             end) (t_rows t).

(** Largest integer key in use, 0 in an empty table: a row inserted
    without a key gets one more, also when every key is negative, and 1
    in an empty table (the key is declared without AUTOINCREMENT).  At
    the largest 64-bit key SQLite tries unused keys at random instead;
    that is not modelled. *)
Definition max_rowid (t : table) : Z :=
  match rowids t with
  | [] => 0
  | k :: ks => foldr Z.max k ks
  end.

(** The integer primary key stays unique. *)
Definition keys_ok (pk : string) (rows : list row) : Prop :=
  Forall (λ r, ∃ k, col r pk = SInt k) rows ∧ NoDup ((λ r, col r pk) <$> rows).

#[global] Instance keys_ok_dec pk rows : Decision (keys_ok pk rows).
Proof.
  unfold keys_ok. apply and_dec; [|apply _].
  apply Forall_dec. intros r. destruct (col r pk) as [|k|s].
  - right. intros [k Hk]. discriminate.
  - left. by exists k.
  - right. intros [k Hk]. discriminate.
Defined.

Definition with_rows (t : table) (rows : list row) : table :=
  {| t_columns := t_columns t; t_pk := t_pk t; t_rows := rows |}.

Definition execute_dml (s : dml) (t : table) : result table :=
  match s with
  | InsertOrReplace values =>
      (* INSERT OR REPLACE INTO t (cols) VALUES (?, ...) *)
      if decide (values = ∅) then Raise DatabaseError
      else if decide (known_columns t (dom values)) then
        r ← bind_params values;
        match col r (t_pk t) with
        | SInt k =>
            Ok (with_rows t
                  (filter (λ r', sql_eq (col r' (t_pk t)) (SInt k) = false)
                     (t_rows t) ++ [r]))
        | SNull =>
            Ok (with_rows t
                  (t_rows t ++ [<[t_pk t := SInt (max_rowid t + 1)]> r]))
        | SText _ => Raise DatabaseError
        end
      else Raise DatabaseError
  | UpdateWhereId assignments id =>
      (* UPDATE t SET c = ?, ... WHERE id = ? *)
      if decide (assignments = ∅) then Raise DatabaseError
      else if decide (known_columns t (dom assignments) ∧ "id" ∈ t_columns t)
      then
        a ← bind_params assignments;
        match bind_param id with
        | None => Raise DatabaseError
        | Some v =>
            let rows' :=
              (λ r, if sql_eq (col r "id") v then a ∪ r else r) <$> t_rows t in
            if decide (is_Some (a !! t_pk t) ∧ ¬ keys_ok (t_pk t) rows')
            then Raise DatabaseError
            else Ok (with_rows t rows')
        end
      else Raise DatabaseError
  | DeleteWhereId id =>
      (* DELETE FROM t WHERE id = ? *)
      if decide ("id" ∈ t_columns t) then
        Ok (with_rows t
              (filter (λ r, sql_eq (col r "id") id = false) (t_rows t)))
      else Raise DatabaseError
  end.

(** [data.keys()] and [data.values()] need a dictionary. *)
Definition as_dict (data : json) : result (gmap string json) :=
  match data with
  | JObj m => Ok m
  | _ => Raise AttributeError
  end.

(** [CDCReplicator._apply_insert]. *)
Definition _apply_insert (c : change) (t : table) : result table :=
  data ← as_dict (ch_new_data c);
  execute_dml (InsertOrReplace data) t.

(** [CDCReplicator._apply_update]: the SET clause and its values leave the
    key ['id'] out; [data['id']] is the value of the WHERE clause. *)
Definition _apply_update (c : change) (t : table) : result table :=
  data ← as_dict (ch_new_data c);
  match data !! "id" with
  | None => Raise KeyError
  | Some id => execute_dml (UpdateWhereId (delete "id" data) id) t
  end.

(** [CDCReplicator._apply_delete]. *)
Definition _apply_delete (c : change) (t : table) : result table :=
  execute_dml (DeleteWhereId (ch_record_id c)) t.

(** The body of the [try] in the loop of [replicate_changes]. *)
Definition apply_change (c : change) (t : table) : result table :=
  if decide (ch_operation c = "INSERT") then _apply_insert c t
  else if decide (ch_operation c = "UPDATE") then _apply_update c t
  else if decide (ch_operation c = "DELETE") then _apply_delete c t
  else Ok t.

(** ** The replicator *)

(** The target connection: what its statements have written, and what the
    last [commit()] made durable. *)
Record target_db := TargetDb {
  tgt_live : table;
  tgt_committed : table
}.

Definition target_commit (d : target_db) : target_db :=
  {| tgt_live := tgt_live d; tgt_committed := tgt_live d |}.

(** The calls [replicate_changes] makes after its loop. *)
Inductive call :=
  | CallMarkAsSynced (cdc_ids : list Z)
  | CallTargetCommit.

#[global] Instance call_eq_dec : EqDecision call.
Proof. solve_decision. Defined.

Record system := System {
  sys_catalog : catalog;
  sys_source : source_db;
  sys_target : target_db
}.

(** The [for change in changes] loop: an exception of one record is caught
    and the loop goes on; the id of a record that applied is appended to
    [replicated_ids]. *)
Fixpoint replicate_loop (changes : list change) (t : table)
    (replicated_ids : list Z) : list Z * table :=
  match changes with
  | [] => (replicated_ids, t)
  | c :: rest =>
      match apply_change c t with
      | Ok t' => replicate_loop rest t' (replicated_ids ++ [ch_cdc_id c])
      | Raise _ => replicate_loop rest t replicated_ids
      end
  end.

Definition with_cdc_rows (s : source_db) (t : cdc_table) : source_db :=
  {| cdc_rows := t; cdc_seq := cdc_seq s |}.

Section Replicator.

Variable json_loads : string → option json.

(** [CDCReplicator.replicate_changes]: the count returned, the state left
    behind and the calls made on the two collaborators.  An exception of
    [get_pending_changes] is not caught. *)
Definition replicate_changes (now : Z) (batch_size : Z) (s : system)
  : result (Z * system * list call) :=
  changes ← get_pending_changes json_loads (Some batch_size)
              (cdc_rows (sys_source s));
  match changes with
  | [] => Ok (0, s, [])
  | _ =>
      let '(replicated_ids, t) :=
        replicate_loop changes (tgt_live (sys_target s)) [] in
      let live := {| tgt_live := t;
                     tgt_committed := tgt_committed (sys_target s) |} in
      match replicated_ids with
      | [] =>
          Ok (Z.of_nat (length replicated_ids),
              {| sys_catalog := sys_catalog s;
                 sys_source := sys_source s;
                 sys_target := live |}, [])
      | _ =>
          Ok (Z.of_nat (length replicated_ids),
              {| sys_catalog := sys_catalog s;
                 sys_source :=
                   with_cdc_rows (sys_source s)
                     (mark_as_synced now replicated_ids
                        (cdc_rows (sys_source s)));
                 sys_target := target_commit live |},
              [CallMarkAsSynced replicated_ids; CallTargetCommit])
      end
  end.

(** ** The operations of the core, as steps on the whole system *)

Variable json_object : list (string * sqlval) → string.

Inductive operation_call :=
  | OpSetup (table_name : string) (columns : list string)
  | OpCapture (trg : trigger) (m : mutation)
  | OpGetPendingChanges (limit : option Z)
  | OpMarkAsSynced (cdc_ids : list Z)
  | OpGetChangeStatistics
  | OpReplicateChanges (batch_size : Z)
  | OpGetHealthReport.

(** The state an operation leaves, whether it returns or raises. *)
Definition step (now : Z) (o : operation_call) (s : system) : system :=
  match o with
  | OpSetup table_name columns =>
      {| sys_catalog :=
           (run (setup_trigger_based_cdc table_name columns)
              (sys_catalog s)).1;
         sys_source := sys_source s;
         sys_target := sys_target s |}
  | OpCapture trg m =>
      match fire_trigger json_object trg m now (sys_source s) with
      | Ok src =>
          {| sys_catalog := sys_catalog s;
             sys_source := src;
             sys_target := sys_target s |}
      | Raise _ => s
      end
  | OpMarkAsSynced ids =>
      {| sys_catalog := sys_catalog s;
         sys_source :=
           with_cdc_rows (sys_source s)
             (mark_as_synced now ids (cdc_rows (sys_source s)));
         sys_target := sys_target s |}
  | OpReplicateChanges batch_size =>
      match replicate_changes now batch_size s with
      | Ok (_, s', _) => s'
      | Raise _ => s
      end
  | OpGetPendingChanges _ | OpGetChangeStatistics | OpGetHealthReport => s
  end.

(** A run: operations with the clock reading each one sees. *)
Fixpoint run_ops (ops : list (Z * operation_call)) (s : system) : system :=
  match ops with
  | [] => s
  | (now, o) :: rest => run_ops rest (step now o s)
  end.

End Replicator.


(** ** A codec for the documents the capture triggers write

    [json_object] and [json.loads] are arguments of the model.  To run it
    on concrete logs, this module gives stand-ins for both, for the
    documents the capture triggers produce from integer, text and NULL
    columns whose labels and texts need no escaping: one flat object, no
    white space, no escapes.  [loads] is not [json.loads]: it reads this
    form only, and rejects what else [json.loads] accepts (white space,
    escapes, fractions, nested values); it also rejects a number with a
    leading zero and a backslash or control character in a string, as
    [json.loads] does.  It is used on the sample documents only. *)
Module Codec.

Definition dquote : ascii := "034"%char.

Definition member_text (f : string * sqlval) : string :=
  String dquote (f.1 +:+ String dquote ":") +:+
  match f.2 with
  | SNull => "null"
  | SInt n => pretty n
  | SText s => String dquote (s +:+ String dquote "")
  end.

Fixpoint members_text (fs : list (string * sqlval)) : string :=
  match fs with
  | [] => ""
  | [f] => member_text f
  | f :: fs' => member_text f +:+ "," +:+ members_text fs'
  end.

Definition json_object (fs : list (string * sqlval)) : string :=
  "{" +:+ members_text fs +:+ "}".

Inductive pstate :=
  | PStart
  | PFirstKey
  | PKeyOpen (m : gmap string json)
  | PKey (m : gmap string json) (k : string)
  | PColon (m : gmap string json) (k : string)
  | PValue (m : gmap string json) (k : string)
  | PStr (m : gmap string json) (k : string) (s : string)
  | PSign (m : gmap string json) (k : string)
  | PNum (m : gmap string json) (k : string) (neg : bool) (n : Z)
  | PWord (m : gmap string json) (k : string) (w : string)
  | PNext (m : gmap string json)
  | PDone (m : gmap string json)
  | PFail.

Definition digit (c : ascii) : option Z :=
  let n := Z.of_nat (nat_of_ascii c) in
  if decide (48 ≤ n ≤ 57) then Some (n - 48) else None.

Definition snoc (s : string) (c : ascii) : string := s +:+ String c "".

(** A character that stands for itself inside a JSON string. *)
Definition plain_char (c : ascii) : bool :=
  let n := Z.of_nat (nat_of_ascii c) in
  bool_decide (32 ≤ n ∧ n ≠ 92).

Definition word_value (w : string) : option json :=
  if decide (w = "null") then Some JNull
  else if decide (w = "true") then Some (JBool true)
  else if decide (w = "false") then Some (JBool false)
  else None.

(** After a complete value [v] of key [k], on the separator [c]. *)
Definition close_value (m : gmap string json) (k : string) (v : json)
    (c : ascii) : pstate :=
  if decide (c = ","%char) then PKeyOpen (<[k := v]> m)
  else if decide (c = "}"%char) then PDone (<[k := v]> m)
  else PFail.

Definition pstep (st : pstate) (c : ascii) : pstate :=
  match st with
  | PStart => if decide (c = "{"%char) then PFirstKey else PFail
  | PFirstKey =>
      if decide (c = "}"%char) then PDone ∅
      else if decide (c = dquote) then PKey ∅ "" else PFail
  | PKeyOpen m => if decide (c = dquote) then PKey m "" else PFail
  | PKey m k =>
      if decide (c = dquote) then PColon m k
      else if plain_char c then PKey m (snoc k c)
      else PFail
  | PColon m k => if decide (c = ":"%char) then PValue m k else PFail
  | PValue m k =>
      if decide (c = dquote) then PStr m k ""
      else if decide (c = "-"%char) then PSign m k
      else match digit c with
           | Some d => PNum m k false d
           | None => PWord m k (String c "")
           end
  | PStr m k s =>
      if decide (c = dquote) then PNext (<[k := JStr s]> m)
      else if plain_char c then PStr m k (snoc s c)
      else PFail
  | PSign m k =>
      match digit c with
      | Some d => PNum m k true d
      | None => PFail
      end
  | PNum m k neg n =>
      match digit c with
      | Some d => if decide (n = 0) then PFail else PNum m k neg (10 * n + d)
      | None => close_value m k (JNum (if neg then - n else n)) c
      end
  | PWord m k w =>
      if decide (c = ","%char ∨ c = "}"%char) then
        match word_value w with
        | Some v => close_value m k v c
        | None => PFail
        end
      else PWord m k (snoc w c)
  | PNext m =>
      if decide (c = ","%char) then PKeyOpen m
      else if decide (c = "}"%char) then PDone m
      else PFail
  | PDone _ | PFail => PFail
  end.

Fixpoint scan (st : pstate) (s : string) : pstate :=
  match s with
  | EmptyString => st
  | String c s' => scan (pstep st c) s'
  end.

Definition loads (s : string) : option json :=
  match scan PStart s with
  | PDone m => Some (JObj m)
  | _ => None
  end.

End Codec.

(** ** A sample relation

    The table of the test suite, [test_table (id, name, value)], its three
    triggers as the setup installs them, and a log they filled. *)
Module Sample.

Definition columns : list string := ["id"; "name"; "value"].

Definition insert_trigger : trigger :=
  {| trg_event := AfterInsert; trg_on := "test_table";
     trg_into := "test_table_cdc"; trg_operation := "INSERT";
     trg_record_id := (NEW, "id");
     trg_old_json := None; trg_new_json := Some columns |}.

Definition update_trigger : trigger :=
  {| trg_event := AfterUpdate; trg_on := "test_table";
     trg_into := "test_table_cdc"; trg_operation := "UPDATE";
     trg_record_id := (NEW, "id");
     trg_old_json := Some columns; trg_new_json := Some columns |}.

Definition delete_trigger : trigger :=
  {| trg_event := AfterDelete; trg_on := "test_table";
     trg_into := "test_table_cdc"; trg_operation := "DELETE";
     trg_record_id := (OLD, "id");
     trg_old_json := Some columns; trg_new_json := None |}.

Definition mk_row (id : Z) (name : string) (value : Z) : row :=
  <["id" := SInt id]> (<["name" := SText name]> (<["value" := SInt value]> ∅)).

Definition empty_source : source_db := {| cdc_rows := ∅; cdc_seq := 0 |}.

(** The source after the given mutations, captured at times 1, 2, ... *)
Fixpoint captured (now : Z) (ms : list (trigger * mutation)) (s : source_db)
  : source_db :=
  match ms with
  | [] => s
  | (trg, m) :: ms' =>
      match fire_trigger Codec.json_object trg m now s with
      | Ok s' => captured (now + 1) ms' s'
      | Raise _ => captured (now + 1) ms' s
      end
  end.

(** insert (test1, 100); update value to 200; delete the row. *)
Definition history : list (trigger * mutation) :=
  [(insert_trigger, Inserted (mk_row 1 "test1" 100));
   (update_trigger, Updated (mk_row 1 "test1" 100) (mk_row 1 "test1" 200));
   (delete_trigger, Deleted (mk_row 1 "test1" 200))].

Definition source : source_db := captured 1 history empty_source.

Definition target_table : table :=
  {| t_columns := columns; t_pk := "id"; t_rows := [] |}.

Definition target : target_db :=
  {| tgt_live := target_table; tgt_committed := target_table |}.

(** A log of [n] captured inserts, none delivered yet. *)
Definition pending_log (n : nat) : cdc_table :=
  list_to_map
    ((λ i, (Z.of_nat i,
            {| operation := "INSERT";
               record_id := SInt (Z.of_nat i);
               old_data := None;
               new_data := Some (Codec.json_object [("id", SInt (Z.of_nat i))]);
               changed_at := Z.of_nat i;
               synced := 0;
               sync_timestamp := None |})) <$> seq 1 n).




(** A target table that has none of the columns of the source. *)
Definition foreign_table : table :=
  {| t_columns := ["key"; "payload"]; t_pk := "key"; t_rows := [] |}.

Definition foreign_target : target_db :=
  {| tgt_live := foreign_table; tgt_committed := foreign_table |}.

(** A relation whose primary key is not called [id]:
    [users (user_id, name)], one insert and one update of the row. *)
Definition users_columns : list string := ["user_id"; "name"].

Definition users_insert_trigger : trigger :=
  {| trg_event := AfterInsert; trg_on := "users";
     trg_into := "users_cdc"; trg_operation := "INSERT";
     trg_record_id := (NEW, "user_id");
     trg_old_json := None; trg_new_json := Some users_columns |}.

Definition users_update_trigger : trigger :=
  {| trg_event := AfterUpdate; trg_on := "users";
     trg_into := "users_cdc"; trg_operation := "UPDATE";
     trg_record_id := (NEW, "user_id");
     trg_old_json := Some users_columns; trg_new_json := Some users_columns |}.

Definition user_row (user_id : Z) (name : string) : row :=
  <["user_id" := SInt user_id]> (<["name" := SText name]> ∅).

Definition users_history : list (trigger * mutation) :=
  [(users_insert_trigger, Inserted (user_row 1 "ann"));
   (users_update_trigger, Updated (user_row 1 "ann") (user_row 1 "bea"))].

Definition users_source : source_db := captured 1 users_history empty_source.

Definition users_replica : table :=
  {| t_columns := users_columns; t_pk := "user_id"; t_rows := [] |}.

(** The two records of [users_history], as [get_pending_changes] returns
    them. *)
Definition users_insert_change : change :=
  {| ch_cdc_id := 1; ch_operation := "INSERT"; ch_record_id := SInt 1;
     ch_old_data := JNull;
     ch_new_data :=
       JObj (<["user_id" := JNum 1]> (<["name" := JStr "ann"]> ∅));
     ch_changed_at := 1; ch_synced := 0; ch_sync_timestamp := None |}.

Definition users_update_change : change :=
  {| ch_cdc_id := 2; ch_operation := "UPDATE"; ch_record_id := SInt 1;
     ch_old_data :=
       JObj (<["user_id" := JNum 1]> (<["name" := JStr "ann"]> ∅));
     ch_new_data :=
       JObj (<["user_id" := JNum 1]> (<["name" := JStr "bea"]> ∅));
     ch_changed_at := 2; ch_synced := 0; ch_sync_timestamp := None |}.

(** The replica once the insert is applied. *)
Definition users_replica1 : table :=
  {| t_columns := users_columns; t_pk := "user_id";
     t_rows := [user_row 1 "ann"] |}.

(** The INSERT, UPDATE and DELETE records of [history], as
    [get_pending_changes] returns them. *)
Definition image (id : Z) (name : string) (value : Z) : gmap string json :=
  <["id" := JNum id]> (<["name" := JStr name]> (<["value" := JNum value]> ∅)).

Definition insert_change : change :=
  {| ch_cdc_id := 1; ch_operation := "INSERT"; ch_record_id := SInt 1;
     ch_old_data := JNull; ch_new_data := JObj (image 1 "test1" 100);
     ch_changed_at := 1; ch_synced := 0; ch_sync_timestamp := None |}.

Definition update_change : change :=
  {| ch_cdc_id := 2; ch_operation := "UPDATE"; ch_record_id := SInt 1;
     ch_old_data := JObj (image 1 "test1" 100);
     ch_new_data := JObj (image 1 "test1" 200);
     ch_changed_at := 2; ch_synced := 0; ch_sync_timestamp := None |}.

Definition delete_change : change :=
  {| ch_cdc_id := 3; ch_operation := "DELETE"; ch_record_id := SInt 1;
     ch_old_data := JObj (image 1 "test1" 200); ch_new_data := JNull;
     ch_changed_at := 3; ch_synced := 0; ch_sync_timestamp := None |}.

(** The target with two rows replicated. *)
Definition filled_table : table :=
  {| t_columns := columns; t_pk := "id";
     t_rows := [mk_row 1 "test1" 100; mk_row 2 "test2" 50] |}.

(** A run of the core on the sample system: a batch of two, a manual
    mark, one more capture and a second setup. *)
Definition operations : list (Z * operation_call) :=
  [(10, OpReplicateChanges 2);
   (11, OpGetPendingChanges None);
   (12, OpMarkAsSynced [3]);
   (13, OpCapture insert_trigger (Inserted (mk_row 2 "test2" 50)));
   (14, OpSetup "test_table" columns);
   (15, OpGetHealthReport)].

Definition empty_catalog : catalog :=
  {| cat_tables := ∅; cat_indexes := ∅; cat_triggers := ∅ |}.

(** The database of the test fixture: [test_table] exists, nothing else. *)
Definition catalog0 : catalog :=
  {| cat_tables := {[ "test_table" := columns ]};
     cat_indexes := ∅; cat_triggers := ∅ |}.

(** The catalogue after the setup of [test_table]. *)
Definition catalog1 : catalog :=
  (run (setup_trigger_based_cdc "test_table" columns) catalog0).1.

Definition system0 : system :=
  {| sys_catalog := catalog0; sys_source := source; sys_target := target |}.


Definition foreign_system : system :=
  {| sys_catalog := catalog0; sys_source := source;
     sys_target := foreign_target |}.

End Sample.

(** ** Notions used to state the properties *)

(** Every pending row holds documents [json.loads] accepts. *)
Definition decodable (json_loads : string → option json) (t : cdc_table)
  : Prop :=
  map_Forall (λ id r, synced r = 0 →
                      is_ok (decode_row json_loads (id, r)) = true) t.

#[global] Instance decodable_dec json_loads t :
  Decision (decodable json_loads t).
Proof. unfold decodable. apply _. Defined.

(** The ids [get_pending_changes] returns for a given [limit]. *)
Definition expected_ids (limit : option Z) (t : cdc_table) : list Z :=
  match limit_clause limit with
  | Some n => sql_limit n (pending_ids t)
  | None => pending_ids t
  end.

(** What a record keeps for good once it is appended. *)
Definition same_capture (r r' : cdc_row) : Prop :=
  operation r' = operation r ∧ record_id r' = record_id r
  ∧ old_data r' = old_data r ∧ new_data r' = new_data r
  ∧ changed_at r' = changed_at r.

(** The delivery columns either stay as they are or the record is (now)
    delivered. *)
Definition delivery_forward (r r' : cdc_row) : Prop :=
  (synced r' = synced r ∧ sync_timestamp r' = sync_timestamp r)
  ∨ synced r' = 1.

(** Two rows that differ at most in [sync_timestamp]. *)
Definition same_but_timestamp (r r' : cdc_row) : Prop :=
  same_capture r r' ∧ synced r' = synced r.


(** The statements [setup_trigger_based_cdc] sends, in order; where
    building the text of one raises, the exception stands in its place. *)
Definition trigger_statement (table_name suffix : string) (ev : dml_event)
    (op : string) (ref : row_ref) (old new : option (list string))
    (columns : list string) : result ddl :=
  match columns with
  | [] => Raise IndexError
  | c0 :: _ =>
      Ok (CreateTrigger (table_name +:+ suffix)
            {| trg_event := ev; trg_on := table_name;
               trg_into := cdc_table_name table_name;
               trg_operation := op; trg_record_id := (ref, c0);
               trg_old_json := old; trg_new_json := new |})
  end.

Definition setup_script (table_name : string) (columns : list string)
  : list (result ddl) :=
  [Ok (CreateTable (cdc_table_name table_name) cdc_columns);
   Ok (CreateIndex ("idx_" +:+ cdc_table_name table_name +:+ "_synced")
         (cdc_table_name table_name) ["synced"; "cdc_id"]);
   trigger_statement table_name "_insert_trigger" AfterInsert "INSERT" NEW
     None (Some columns) columns;
   trigger_statement table_name "_update_trigger" AfterUpdate "UPDATE" NEW
     (Some columns) (Some columns) columns;
   trigger_statement table_name "_delete_trigger" AfterDelete "DELETE" OLD
     (Some columns) None columns].

Fixpoint run_script (script : list (result ddl)) : conn unit :=
  match script with
  | [] => mret ()
  | Raise e :: _ => raise e
  | Ok s :: rest => execute s;; run_script rest
  end.

(** The object a statement creates is there, so the statement does
    nothing. *)
Definition installed (s : ddl) (c : catalog) : Prop :=
  match s with
  | CreateTable name _ => is_Some (cat_tables c !! name)
  | CreateIndex name on _ =>
      is_Some (cat_tables c !! on) ∧ cat_tables c !! name = None
      ∧ is_Some (cat_indexes c !! name)
  | CreateTrigger name body =>
      is_Some (cat_tables c !! trg_on body)
      ∧ is_Some (cat_triggers c !! name)
  end.

(** [setup_trigger_based_cdc] called [n] times in a row. *)
Fixpoint setup_repeatedly (n : nat) (table_name : string)
    (columns : list string) (c : catalog) : catalog :=
  match n with
  | O => c
  | S n' =>
      setup_repeatedly n' table_name columns
        (run (setup_trigger_based_cdc table_name columns) c).1
  end.

(** What a batch does to the target, record by record: the ids of the
    records that applied, the records that raised, the table at the end.
    A record that raises leaves the table as it found it, and the next
    record is applied to that table. *)
Inductive batch_outcome :
    table → list change → list Z → list change → table → Prop :=
  | outcome_done t : batch_outcome t [] [] [] t
  | outcome_applied t t' t'' c cs ids failed :
      apply_change c t = Ok t' →
      batch_outcome t' cs ids failed t'' →
      batch_outcome t (c :: cs) (ch_cdc_id c :: ids) failed t''
  | outcome_failed t t'' e c cs ids failed :
      apply_change c t = Raise e →
      batch_outcome t cs ids failed t'' →
      batch_outcome t (c :: cs) ids (c :: failed) t''.

(** The calls made after the loop, given the ids that applied. *)
Definition calls_after (ids : list Z) : list call :=
  match ids with
  | [] => []
  | _ => [CallMarkAsSynced ids; CallTargetCommit]
  end.

(** The target connection after a batch that left the table [t']: the
    commit happens only when some id applied. *)
Definition target_after (ids : list Z) (t' : table) (d : target_db)
  : target_db :=
  {| tgt_live := t';
     tgt_committed := match ids with [] => tgt_committed d | _ => t' end |}.

(** Case analysis on a statement that ran. *)
Ltac ddl_cases Hx :=
  repeat case_decide; try discriminate Hx; injection Hx as <-.

(** ** Further notions: runs of captures, configuration *)

Section CaptureRuns.

Variable json_object : list (string * sqlval) → string.

(** Source mutations one after the other, each with the clock reading its
    trigger sees.  A trigger that raises aborts its statement, and the
    caller's sequence stops there. *)
Fixpoint fire_all (ms : list (Z * trigger * mutation)) (s : source_db)
  : result source_db :=
  match ms with
  | [] => Ok s
  | (now, trg, m) :: ms' =>
      s' ← fire_trigger json_object trg m now s;
      fire_all ms' s'
  end.

End CaptureRuns.

(** The row a trigger writes has every column the trigger reads, and its
    [record_id] column is not NULL. *)
Definition capturable (trg : trigger) (m : mutation) : Prop :=
  (∃ r v, image m (trg_record_id trg).1 = Some r
          ∧ r !! (trg_record_id trg).2 = Some v ∧ v ≠ SNull)
  ∧ (∀ cs, trg_old_json trg = Some cs →
       ∃ r, image m OLD = Some r ∧ ∀ c, c ∈ cs → is_Some (r !! c))
  ∧ (∀ cs, trg_new_json trg = Some cs →
       ∃ r, image m NEW = Some r ∧ ∀ c, c ∈ cs → is_Some (r !! c)).

(** The value the WHERE clause of an UPDATE or DELETE record compares the
    column [id] with: [data['id']] as bound, or [record_id]. *)
Definition where_id (c : change) : option sqlval :=
  if decide (ch_operation c = "DELETE") then Some (ch_record_id c)
  else match ch_new_data c with
       | JObj m => m !! "id" ≫= bind_param
       | _ => None
       end.


(** SQLite's integers have 64 bits. *)
Definition int64 (v : sqlval) : Prop :=
  match v with
  | SInt n => - 2 ^ 63 ≤ n < 2 ^ 63
  | _ => True
  end.

(** ** Names as SQLite reads them

    The setup splices its table and column names into the statement
    text unquoted, and SQLite compares names without regard to ASCII
    letter case. *)

Definition lower_char (c : ascii) : ascii :=
  let n := nat_of_ascii c in
  if bool_decide (65 ≤ n ≤ 90)%nat then ascii_of_nat (n + 32) else c.

Fixpoint lower (s : string) : string :=
  match s with
  | EmptyString => EmptyString
  | String c s' => String (lower_char c) (lower s')
  end.

Definition letter (c : ascii) : bool :=
  let n := nat_of_ascii c in
  bool_decide ((65 ≤ n ≤ 90) ∨ (97 ≤ n ≤ 122) ∨ n = 95)%nat.

Definition letter_or_digit (c : ascii) : bool :=
  let n := nat_of_ascii c in
  letter c || bool_decide (48 ≤ n ≤ 57)%nat.

Fixpoint letters_or_digits (s : string) : bool :=
  match s with
  | EmptyString => true
  | String c s' => letter_or_digit c && letters_or_digits s'
  end.

(** The keywords of SQLite's grammar.  Some of them are accepted as
    names where the grammar allows it; none of them is taken for a
    plain name here. *)
Definition sqlite_keywords : list string :=
  ["abort"; "action"; "add"; "after"; "all"; "alter"; "always";
   "analyze"; "and"; "as"; "asc"; "attach"; "autoincrement"; "before";
   "begin"; "between"; "by"; "cascade"; "case"; "cast"; "check";
   "collate"; "column"; "commit"; "conflict"; "constraint"; "create";
   "cross"; "current"; "current_date"; "current_time";
   "current_timestamp"; "database"; "default"; "deferrable"; "deferred";
   "delete"; "desc"; "detach"; "distinct"; "do"; "drop"; "each"; "else";
   "end"; "escape"; "except"; "exclude"; "exclusive"; "exists";
   "explain"; "fail"; "filter"; "first"; "following"; "for"; "foreign";
   "from"; "full"; "generated"; "glob"; "group"; "groups"; "having";
   "if"; "ignore"; "immediate"; "in"; "index"; "indexed"; "initially";
   "inner"; "insert"; "instead"; "intersect"; "into"; "is"; "isnull";
   "join"; "key"; "last"; "left"; "like"; "limit"; "match";
   "materialized"; "natural"; "no"; "not"; "nothing"; "notnull"; "null";
   "nulls"; "of"; "offset"; "on"; "or"; "order"; "others"; "outer";
   "over"; "partition"; "plan"; "pragma"; "preceding"; "primary";
   "query"; "raise"; "range"; "recursive"; "references"; "regexp";
   "reindex"; "release"; "rename"; "replace"; "restrict"; "returning";
   "right"; "rollback"; "row"; "rows"; "savepoint"; "select"; "set";
   "table"; "temp"; "temporary"; "then"; "ties"; "to"; "transaction";
   "trigger"; "unbounded"; "union"; "unique"; "update"; "using";
   "vacuum"; "values"; "view"; "virtual"; "when"; "where"; "window";
   "with"; "without"; "within"].

(** A name that unquoted SQL text can carry: a letter or underscore
    followed by letters, digits and underscores, no keyword, and not in
    the name space [sqlite_] the engine keeps for itself. *)
Definition plain_identifier (s : string) : bool :=
  match s with
  | EmptyString => false
  | String c s' => letter c && letters_or_digits s'
  end
  && bool_decide (lower s ∉ sqlite_keywords)
  && negb (String.prefix "sqlite_" (lower s)).

(** The names of a setup are plain, and the columns few enough for the
    two arguments each of them gives [json_object] (SQLite allows a
    function 127 arguments, 1000 in later versions). *)
Definition plain_names (table_name : string) (columns : list string)
  : Prop :=
  plain_identifier table_name = true
  ∧ Forall (λ c, plain_identifier c = true) columns
  ∧ (length columns ≤ 63)%nat.

#[global] Instance plain_names_dec table_name columns :
  Decision (plain_names table_name columns).
Proof. unfold plain_names. apply _. Defined.

(** No object of the catalogue has the name [n], in any letter case. *)
Definition no_name_like {A} (m : gmap string A) (n : string) : Prop :=
  map_Forall (λ k _, lower k ≠ lower n) m.

(** The names SQLite gives the integer key of every table. *)
Definition rowid_aliases : list string := ["rowid"; "oid"; "_rowid_"].

(** SQLite finds no column of the table for the name [k]. *)
Definition no_such_column (t : table) (k : string) : Prop :=
  (lower k ∉ lower <$> t_columns t) ∧ (lower k ∉ rowid_aliases).

#[global] Instance no_such_column_dec t k : Decision (no_such_column t k).
Proof. unfold no_such_column. apply _. Defined.

#[global] Instance int64_dec v : Decision (int64 v).
Proof. destruct v; apply _. Defined.

(** ** Further sample data: the edges of the pipeline *)
Module Edge.

(** An insert and an update of the sample row, with their clock
    readings. *)
Definition two_captures : list (Z * trigger * mutation) :=
  [(1, Sample.insert_trigger, Inserted (Sample.mk_row 1 "test1" 100));
   (2, Sample.update_trigger,
    Updated (Sample.mk_row 1 "test1" 100) (Sample.mk_row 1 "test1" 200))].




(** A record written by hand with a lower-case operation. *)
Definition lowercase_change : change :=
  {| ch_cdc_id := 7; ch_operation := "insert"; ch_record_id := SInt 3;
     ch_old_data := JNull; ch_new_data := JObj (Sample.image 3 "test3" 300);
     ch_changed_at := 7; ch_synced := 0; ch_sync_timestamp := None |}.

(** An INSERT record of a relation set up without its key column. *)
Definition keyless_image : gmap string json :=
  <["name" := JStr "test3"]> (<["value" := JNum 300]> ∅).

Definition keyless_row : row :=
  <["name" := SText "test3"]> (<["value" := SInt 300]> ∅).

Definition keyless_change : change :=
  {| ch_cdc_id := 8; ch_operation := "INSERT";
     ch_record_id := SText "test3";
     ch_old_data := JNull; ch_new_data := JObj keyless_image;
     ch_changed_at := 8; ch_synced := 0; ch_sync_timestamp := None |}.



(** A replica whose keys are all negative. *)
Definition negative_table : table :=
  {| t_columns := Sample.columns; t_pk := "id";
     t_rows := [Sample.mk_row (-7) "test1" 100;
                Sample.mk_row (-5) "test2" 50] |}.

(** An INSERT record with a column, [extra], that the sample replica
    does not have. *)
Definition wide_image : gmap string json :=
  <["extra" := JNum 7]> (Sample.image 2 "test2" 200).

Definition wide_change : change :=
  {| ch_cdc_id := 2; ch_operation := "INSERT"; ch_record_id := SInt 2;
     ch_old_data := JNull; ch_new_data := JObj wide_image;
     ch_changed_at := 2; ch_synced := 0; ch_sync_timestamp := None |}.

End Edge.

(** * Properties *)

(** ** Lists *)

Lemma filter_ext_in {A} (P Q : A → Prop)
    `{∀ x, Decision (P x)} `{∀ x, Decision (Q x)} (l : list A) :
  (∀ x, x ∈ l → P x ↔ Q x) → filter P l = filter Q l.
Proof.
  induction l as [|x l IH]; intros Hext; [done|].
  rewrite !filter_cons.
  assert (HPQ : P x ↔ Q x) by (apply Hext; by left).
  rewrite IH by (intros y Hy; apply Hext; by right).
  repeat case_decide; tauto || done.
Qed.

Lemma filter_all_in {A} (P : A → Prop) `{∀ x, Decision (P x)} (l : list A) :
  (∀ x, x ∈ l → P x) → filter P l = l.
Proof.
  induction l as [|x l IH]; intros Hall; [done|].
  rewrite filter_cons, decide_True by (apply Hall; by left).
  f_equal. apply IH. intros y Hy. apply Hall. by right.
Qed.

Lemma filter_none_in {A} (P : A → Prop) `{∀ x, Decision (P x)} (l : list A) :
  (∀ x, x ∈ l → ¬ P x) → filter P l = [].
Proof.
  induction l as [|x l IH]; intros Hall; [done|].
  rewrite filter_cons, decide_False by (apply Hall; by left).
  apply IH. intros y Hy. apply Hall. by right.
Qed.
(** ** The pending scan *)

Lemma StronglySorted_filter_le (P : Z → Prop) `{∀ x, Decision (P x)} l :
  StronglySorted Z.le l → StronglySorted Z.le (filter P l).
Proof.
  induction 1 as [|x l Hl IH Hx]; [constructor|].
  rewrite filter_cons. case_decide; [|done].
  constructor; [done|].
  rewrite Forall_forall in *. intros y Hy.
  apply Hx. by apply list_elem_of_filter in Hy as [_ ?].
Qed.

Lemma elem_of_pending_ids t id :
  id ∈ pending_ids t ↔ ∃ r, t !! id = Some r ∧ synced r = 0.
Proof.
  unfold pending_ids. rewrite merge_sort_Permutation, list_elem_of_fmap.
  split.
  - intros [[k r] [-> Hkr]]. apply elem_of_map_to_list in Hkr.
    apply map_lookup_filter_Some in Hkr as [? ?]. by exists r.
  - intros [r [Hr Hs]]. exists (id, r). split; [done|].
    apply elem_of_map_to_list. by apply map_lookup_filter_Some.
Qed.

Lemma NoDup_pending_ids t : NoDup (pending_ids t).
Proof.
  unfold pending_ids. rewrite merge_sort_Permutation.
  apply NoDup_fst_map_to_list.
Qed.

Lemma pending_ids_sorted t : StronglySorted Z.le (pending_ids t).
Proof. unfold pending_ids. apply StronglySorted_merge_sort; apply _. Qed.

(** Sorted lists of keys with the same members are the same list. *)
Lemma sorted_keys_unique (l1 l2 : list Z) :
  StronglySorted Z.le l1 → StronglySorted Z.le l2 →
  NoDup l1 → NoDup l2 → (∀ x, x ∈ l1 ↔ x ∈ l2) → l1 = l2.
Proof.
  intros H1 H2 N1 N2 Hiff.
  apply (StronglySorted_unique Z.le); [done..|].
  by apply NoDup_Permutation.
Qed.

Lemma lookup_update_synced now ids t id :
  update_synced now ids t !! id
  = (λ r, if decide (id ∈ ids) then set_synced now r else r) <$> t !! id.
Proof.
  unfold update_synced. rewrite map_lookup_imap.
  by destruct (t !! id).
Qed.

Lemma lookup_mark_as_synced now ids t id :
  mark_as_synced now ids t !! id
  = (λ r, if decide (id ∈ ids) then set_synced now r else r) <$> t !! id.
Proof.
  destruct ids as [|i ids]; [|apply lookup_update_synced].
  simpl. destruct (t !! id) as [r|]; [|done].
  simpl. destruct (decide (id ∈ [])) as [Hin|]; [|done].
  by apply not_elem_of_nil in Hin.
Qed.

(** Marking removes the marked keys from the scan and nothing else. *)
Lemma pending_ids_mark_as_synced now ids t :
  pending_ids (mark_as_synced now ids t)
  = filter (λ id, id ∉ ids) (pending_ids t).
Proof.
  apply sorted_keys_unique.
  - apply pending_ids_sorted.
  - apply StronglySorted_filter_le, pending_ids_sorted.
  - apply NoDup_pending_ids.
  - apply NoDup_filter, NoDup_pending_ids.
  - intros id. rewrite list_elem_of_filter, !elem_of_pending_ids.
    setoid_rewrite lookup_mark_as_synced. split.
    + intros [r' [Hr' Hs]]. destruct (t !! id) as [r|] eqn:Ht; [|done].
      simpl in Hr'. injection Hr' as <-.
      case_decide; [done|]. eauto.
    + intros [Hid [r [Hr Hs]]]. exists r. rewrite Hr. simpl.
      by rewrite decide_False.
Qed.

(** The rows of the scan are the rows of its keys. *)
Lemma select_pending_fst clause t :
  (select_pending clause t).*1
  = match clause with
    | Some n => sql_limit n (pending_ids t)
    | None => pending_ids t
    end.
Proof.
  unfold select_pending.
  set (ids := match clause with Some _ => _ | None => _ end).
  assert (Hsub : ∀ id, id ∈ ids → id ∈ pending_ids t).
  { intros id. unfold ids, sql_limit. destruct clause as [n|]; [|done].
    case_match; [done|]. apply subseteq_take. }
  clearbody ids. induction ids as [|id ids IH]; [done|].
  destruct (proj1 (elem_of_pending_ids t id)) as [r [Hr _]].
  { apply Hsub. by left. }
  simpl. rewrite Hr. simpl. f_equal. apply IH.
  intros id' Hid'. apply Hsub. by right.
Qed.

Section Reader.

Variable json_loads : string → option json.

Lemma decode_row_id kr c :
  decode_row json_loads kr = Ok c →
  ch_cdc_id c = kr.1 ∧ ch_operation c = operation kr.2
  ∧ ch_record_id c = record_id kr.2 ∧ ch_synced c = synced kr.2
  ∧ loads_column json_loads (old_data kr.2) = Ok (ch_old_data c)
  ∧ loads_column json_loads (new_data kr.2) = Ok (ch_new_data c).
Proof.
  unfold decode_row.
  destruct (loads_column json_loads (old_data kr.2)) as [|o]; [done|].
  destruct (loads_column json_loads (new_data kr.2)) as [|n]; [done|].
  simpl. intros [= <-]. done.
Qed.

Lemma decode_rows_Forall2 rows cs :
  decode_rows json_loads rows = Ok cs →
  Forall2 (λ kr c, decode_row json_loads kr = Ok c) rows cs.
Proof.
  revert cs. induction rows as [|kr rows IH]; intros cs; simpl.
  - intros [= <-]. constructor.
  - destruct (decode_row json_loads kr) as [|c] eqn:Hc; [done|]. simpl.
    destruct (decode_rows json_loads rows) as [|cs'] eqn:Hcs; [done|]. simpl.
    intros [= <-]. constructor; [done|]. by apply IH.
Qed.

Lemma decode_rows_ids rows cs :
  decode_rows json_loads rows = Ok cs → ch_cdc_id <$> cs = rows.*1.
Proof.
  intros H. apply decode_rows_Forall2 in H.
  induction H as [|kr c rows cs Hc _ IH]; [done|].
  simpl. f_equal; [|done]. by apply decode_row_id in Hc as [? _].
Qed.

Lemma decode_rows_total rows :
  Forall (λ kr, is_ok (decode_row json_loads kr) = true) rows →
  ∃ cs, decode_rows json_loads rows = Ok cs.
Proof.
  induction 1 as [|kr rows Hkr _ [cs IH]]; [by exists []|].
  simpl. destruct (decode_row json_loads kr) as [|c]; [done|].
  rewrite IH. simpl. by eexists.
Qed.

Lemma elem_of_select_pending clause t id r :
  (id, r) ∈ select_pending clause t → t !! id = Some r ∧ synced r = 0.
Proof.
  unfold select_pending. rewrite list_elem_of_omap.
  intros [id' [Hid' Heq]].
  assert (Hp : id' ∈ pending_ids t).
  { destruct clause as [n|]; [|done]. unfold sql_limit in Hid'.
    case_match; [done|]. by eapply subseteq_take. }
  apply elem_of_pending_ids in Hp as [r' [Hr' Hs]].
  rewrite Hr' in Heq. simpl in Heq. by injection Heq as <- <-.
Qed.

(** On a log whose pending documents decode, [get_pending_changes]
    returns, and returns the decoded rows of [expected_ids]. *)
Lemma get_pending_changes_returns limit t :
  decodable json_loads t →
  ∃ cs, get_pending_changes json_loads limit t = Ok cs
        ∧ ch_cdc_id <$> cs = expected_ids limit t
        ∧ Forall (λ c, ∃ r, t !! ch_cdc_id c = Some r ∧ synced r = 0
                           ∧ decode_row json_loads (ch_cdc_id c, r) = Ok c) cs.
Proof.
  intros Hdec. unfold get_pending_changes.
  destruct (decode_rows_total (select_pending (limit_clause limit) t))
    as [cs Hcs].
  { apply Forall_forall. intros [id r] Hin.
    apply elem_of_select_pending in Hin as [Hr Hs]. by apply (Hdec id r). }
  exists cs. split; [done|]. split.
  - rewrite (decode_rows_ids _ _ Hcs). apply select_pending_fst.
  - apply decode_rows_Forall2 in Hcs.
    assert (Hall : Forall (λ kr, t !! kr.1 = Some kr.2 ∧ synced kr.2 = 0)
                     (select_pending (limit_clause limit) t)).
    { apply Forall_forall. intros [id r] Hin.
      by apply elem_of_select_pending in Hin. }
    induction Hcs as [|kr c rows cs' Hc _ IH]; [constructor|].
    apply Forall_cons in Hall as [[Hr Hs] Hall].
    constructor; [|by apply IH].
    pose proof (decode_row_id _ _ Hc) as [Hid _].
    exists kr.2. rewrite Hid. destruct kr; done.
Qed.


End Reader.

(** ** Statistics *)

Lemma count_rows_nonneg (P : cdc_row → Prop) `{∀ r, Decision (P r)} rows :
  0 ≤ count_rows P rows.
Proof. unfold count_rows. lia. Qed.

Lemma count_rows_cons (P : cdc_row → Prop) `{∀ r, Decision (P r)} r rows :
  count_rows P (r :: rows)
  = (if decide (P r) then 1 else 0) + count_rows P rows.
Proof.
  unfold count_rows. rewrite filter_cons.
  case_decide; simpl length; lia.
Qed.

Lemma count_rows_perm (P : cdc_row → Prop) `{∀ r, Decision (P r)} l1 l2 :
  l1 ≡ₚ l2 → count_rows P l1 = count_rows P l2.
Proof. intros Hp. unfold count_rows. by rewrite Hp. Qed.

Lemma count_rows_ext (P Q : cdc_row → Prop)
    `{∀ r, Decision (P r)} `{∀ r, Decision (Q r)} rows :
  Forall (λ r, P r ↔ Q r) rows → count_rows P rows = count_rows Q rows.
Proof.
  induction 1 as [|r rows Hr _ IH]; [done|].
  rewrite !count_rows_cons, IH. repeat case_decide; tauto.
Qed.

Lemma count_rows_fmap {A} (P : cdc_row → Prop) `{∀ r, Decision (P r)}
    (f : A → cdc_row) (l : list A) :
  count_rows P (f <$> l) = Z.of_nat (length (filter (λ a, P (f a)) l)).
Proof.
  induction l as [|a l IH]; [done|].
  rewrite fmap_cons, count_rows_cons, IH, filter_cons.
  case_decide; simpl length; lia.
Qed.

Lemma count_rows_zero (P : cdc_row → Prop) `{∀ r, Decision (P r)} rows :
  count_rows P rows = 0 ↔ Forall (λ r, ¬ P r) rows.
Proof.
  induction rows as [|r rows IH]; [by split; [constructor|]|].
  rewrite count_rows_cons, Forall_cons.
  pose proof (count_rows_nonneg P rows) as Hnn.
  destruct (decide (P r)) as [HP|HP]; split.
  - lia.
  - tauto.
  - intros Hz. split; [done|]. apply IH. lia.
  - intros [_ Hall]. apply IH in Hall. lia.
Qed.

Lemma aggregate_perm op l1 l2 : l1 ≡ₚ l2 → aggregate op l1 = aggregate op l2.
Proof.
  intros Hp. unfold aggregate.
  by rewrite !(count_rows_perm _ l1 l2 Hp).
Qed.

Lemma lookup_foldl_insert_keys (f : string → stats_entry) (l : list string)
    (m : gmap string stats_entry) k :
  foldl (λ stats row, <[row.1 := row.2]> stats) m ((λ op, (op, f op)) <$> l)
    !! k
  = if decide (k ∈ l) then Some (f k) else m !! k.
Proof.
  revert m. induction l as [|op l IH]; intros m.
  - destruct (decide (k ∈ [])) as [Hin|]; [|done].
    by apply not_elem_of_nil in Hin.
  - rewrite fmap_cons. simpl foldl. rewrite IH. destruct (decide (k ∈ l)) as [Hin|Hnin].
    + rewrite decide_True; [done|by right].
    + destruct (decide (op = k)) as [->|Hne].
      * rewrite lookup_insert_eq, decide_True; [done|by left].
      * rewrite lookup_insert_ne by done.
        rewrite decide_False; [done|].
        intros Hin. apply elem_of_cons in Hin as [->|?]; done.
Qed.

(** A group exists for the operations that occur, and holds their
    counts. *)
Lemma lookup_get_change_statistics t op :
  get_change_statistics t !! op
  = if decide (op ∈ operation <$> rows_of t)
    then Some (aggregate op (rows_of t)) else None.
Proof.
  unfold get_change_statistics, select_statistics.
  rewrite lookup_foldl_insert_keys, lookup_empty.
  destruct (decide (op ∈ operation <$> rows_of t)) as [Hin|Hnin].
  - rewrite decide_True; [done|]. by apply elem_of_elements, elem_of_list_to_set.
  - rewrite decide_False; [done|].
    intros Hin. by apply elem_of_elements, elem_of_list_to_set in Hin.
Qed.

Lemma foldl_insert_list_to_map (l : list (string * stats_entry)) :
  foldl (λ stats row, <[row.1 := row.2]> stats) (∅ : gmap string stats_entry) l
  = list_to_map (reverse l).
Proof.
  induction l as [|[k v] l IH] using rev_ind; [done|].
  by rewrite foldl_app, reverse_snoc, IH.
Qed.

Lemma map_to_list_get_change_statistics t :
  map_to_list (get_change_statistics t) ≡ₚ select_statistics t.
Proof.
  unfold get_change_statistics. rewrite foldl_insert_list_to_map.
  rewrite map_to_list_to_map.
  - apply reverse_Permutation.
  - rewrite fmap_reverse, reverse_Permutation.
    unfold select_statistics. rewrite <- list_fmap_compose.
    simpl. rewrite list_fmap_id. apply NoDup_elements.
Qed.

(** Summing one count over the groups counts the rows of the table. *)
Lemma sum_groups (P : cdc_row → Prop) `{∀ r, Decision (P r)}
    (ops : list string) rows :
  NoDup ops → Forall (λ r, operation r ∈ ops) rows →
  foldr (λ op acc,
           count_rows (λ r, operation r = op ∧ P r) rows + acc) 0 ops
  = count_rows P rows.
Proof.
  intros Hnd. induction 1 as [|r rows Hr _ IH].
  - induction ops as [|op ops IHo]; [done|]. simpl.
    rewrite IHo by (by apply NoDup_cons in Hnd as [_ ?]). done.
  - rewrite count_rows_cons, <- IH. clear IH.
    induction Hnd as [|op ops Hop Hnd IHo].
    + by apply not_elem_of_nil in Hr.
    + simpl. rewrite count_rows_cons.
      destruct (decide (operation r = op)) as [Heq|Hne].
      * assert (Hz : foldr (λ op0 acc,
                  count_rows (λ r0, operation r0 = op0 ∧ P r0) (r :: rows)
                  + acc) 0 ops
                = foldr (λ op0 acc,
                  count_rows (λ r0, operation r0 = op0 ∧ P r0) rows
                  + acc) 0 ops).
        { clear IHo Hr Hnd. induction ops as [|o ops IHo]; [done|]. simpl.
          rewrite count_rows_cons, IHo by set_solver.
          rewrite decide_False; [lia|]. intros [? _]. set_solver. }
        rewrite Hz. repeat case_decide; tauto || lia.
      * rewrite IHo by (apply elem_of_cons in Hr as [?|?]; done).
        repeat case_decide; tauto || lia.
Qed.

Lemma sum_values_get_change_statistics (P : cdc_row → Prop)
    `{∀ r, Decision (P r)} (f : stats_entry → Z) t :
  (∀ op rows, f (aggregate op rows)
              = count_rows (λ r, operation r = op ∧ P r) rows) →
  sum_values f (get_change_statistics t) = count_rows P (rows_of t).
Proof.
  intros Hf. unfold sum_values.
  rewrite (foldr_permutation (=) (λ s acc, f s + acc) 0
             _ ((select_statistics t).*2)).
  - unfold select_statistics. rewrite <- list_fmap_compose.
    rewrite <- (sum_groups P
                  (elements (list_to_set (operation <$> rows_of t)
                             : gset string))).
    + generalize (elements (list_to_set (operation <$> rows_of t)
                            : gset string)).
      intros ops. rewrite foldr_fmap.
      induction ops as [|op ops IH]; [done|].
      simpl in *. by rewrite Hf, IH.
    + apply NoDup_elements.
    + apply Forall_forall. intros r Hr.
      apply elem_of_elements, elem_of_list_to_set, list_elem_of_fmap.
      by exists r.
  - intros. lia.
  - by rewrite map_to_list_get_change_statistics.
Qed.

(** The pending total of the statistics is the number of pending rows, the
    synced total the number of rows with [synced = 1]. *)
Lemma sum_pending t :
  sum_values st_pending (get_change_statistics t)
  = count_rows (λ r, synced r = 0) (rows_of t).
Proof. by apply (sum_values_get_change_statistics (λ r, synced r = 0)). Qed.

Lemma sum_synced t :
  sum_values st_synced (get_change_statistics t)
  = count_rows (λ r, synced r = 1) (rows_of t).
Proof. by apply (sum_values_get_change_statistics (λ r, synced r = 1)). Qed.

(** ** The health report *)

Lemma get_health_report_pending now table_name t :
  pending_changes (get_health_report now table_name t)
  = count_rows (λ r, synced r = 0) (rows_of t).
Proof. unfold get_health_report. simpl. apply sum_pending. Qed.

Lemma get_health_report_status now table_name t :
  health_status (get_health_report now table_name t)
  = if pending_changes (get_health_report now table_name t) <? 1000
    then "healthy" else "warning".
Proof. done. Qed.

(** C3, as stated, fails on the code: with exactly 1000 pending records
    the pending count does not exceed 1000, yet the status is "warning". *)
Lemma health_status_at_1000_pending :
  ¬ (health_status (get_health_report 0 "test_table" (Sample.pending_log 1000))
       = "warning"
     ↔ 1000 < pending_changes
                (get_health_report 0 "test_table" (Sample.pending_log 1000))).
Proof.
  assert (Hp : pending_changes
                 (get_health_report 0 "test_table" (Sample.pending_log 1000))
               = 1000) by (vm_compute; reflexivity).
  rewrite get_health_report_status, Hp. simpl.
  intros [Hw _]. specialize (Hw eq_refl). lia.
Qed.

(** C3, amended: the status is "warning" exactly when the pending count
    summed over all operations is at least 1000, the constant of the code,
    and "healthy" exactly when it is below 1000; that sum is the number of
    pending records of the log; on an empty log the report has
    [total_changes = 0] and status "healthy". *)
Theorem health_status_threshold now table_name t :
  pending_changes (get_health_report now table_name t)
    = sum_values st_pending (get_change_statistics t)
  ∧ pending_changes (get_health_report now table_name t)
    = count_rows (λ r, synced r = 0) (rows_of t)
  ∧ (health_status (get_health_report now table_name t) = "warning"
     ↔ 1000 ≤ pending_changes (get_health_report now table_name t))
  ∧ (health_status (get_health_report now table_name t) = "healthy"
     ↔ pending_changes (get_health_report now table_name t) < 1000)
  ∧ total_changes (get_health_report now table_name ∅) = 0
  ∧ health_status (get_health_report now table_name ∅) = "healthy".
Proof.
  split; [done|]. split; [apply get_health_report_pending|].
  rewrite get_health_report_status.
  destruct (Z.ltb_spec (pending_changes (get_health_report now table_name t))
              1000) as [Hlt|Hge].
  - repeat split; try done; try lia.
  - repeat split; try done; try lia.
Qed.

(** ** Marking records delivered *)

Lemma map_to_list_imap_perm (g : Z → cdc_row → cdc_row) (t : cdc_table) :
  map_to_list (map_imap (λ k r, Some (g k r)) t)
  ≡ₚ (λ kr, (kr.1, g kr.1 kr.2)) <$> map_to_list t.
Proof.
  induction t as [|k r t Hk _ IH] using map_first_key_ind.
  - by rewrite map_imap_empty, !map_to_list_empty.
  - rewrite (map_imap_insert_Some _ _ _ _ (g k r)) by done.
    rewrite !map_to_list_insert; [|done|by rewrite map_lookup_imap, Hk].
    rewrite fmap_cons. simpl. by rewrite IH.
Qed.

Lemma rows_of_mark_as_synced now ids t :
  rows_of (mark_as_synced now ids t)
  ≡ₚ (λ kr : Z * cdc_row,
        if decide (kr.1 ∈ ids) then set_synced now kr.2 else kr.2)
     <$> map_to_list t.
Proof.
  unfold rows_of. destruct ids as [|i ids].
  - simpl. apply reflexive_eq, list_fmap_ext.
    intros i [k r] _. simpl.
    destruct (decide (k ∈ [])) as [Hin|]; [|done].
    by apply not_elem_of_nil in Hin.
  - unfold mark_as_synced, update_synced.
    rewrite map_to_list_imap_perm, <- list_fmap_compose. done.
Qed.

(** The statistics only read [operation] and [synced]. *)
Lemma get_change_statistics_rows (g : Z * cdc_row → cdc_row) t t' :
  rows_of t' ≡ₚ g <$> map_to_list t →
  Forall (λ kr, operation (g kr) = operation kr.2
                ∧ synced (g kr) = synced kr.2) (map_to_list t) →
  get_change_statistics t' = get_change_statistics t.
Proof.
  intros Hperm Hall. apply map_eq. intros op.
  rewrite !lookup_get_change_statistics.
  assert (Hcount : ∀ (P : cdc_row → Prop) `{∀ r, Decision (P r)},
             (∀ kr, kr ∈ map_to_list t → P (g kr) ↔ P kr.2) →
             count_rows P (rows_of t') = count_rows P (rows_of t)).
  { intros P HP Hext. rewrite (count_rows_perm _ _ _ Hperm).
    unfold rows_of. rewrite !count_rows_fmap. f_equal. f_equal.
    apply filter_ext_in. intros kr Hkr. by apply Hext. }
  rewrite Forall_forall in Hall.
  assert (Hagg : aggregate op (rows_of t') = aggregate op (rows_of t)).
  { unfold aggregate. f_equal; apply Hcount; intros kr Hkr;
      destruct (Hall kr Hkr) as [Ho Hs]; rewrite ?Ho, ?Hs; done. }
  assert (Hmem : op ∈ operation <$> rows_of t'
                 ↔ op ∈ operation <$> rows_of t).
  { rewrite Hperm. unfold rows_of. rewrite <- !list_fmap_compose.
    rewrite !list_elem_of_fmap. split; intros [kr [-> Hkr]]; exists kr;
      (split; [|done]); simpl; by destruct (Hall kr Hkr) as [-> _]. }
  rewrite Hagg. repeat case_decide; tauto || done.
Qed.

Lemma mark_as_synced_delivered_statistics now ids t :
  Forall (λ id, ∀ r, t !! id = Some r → synced r = 1) ids →
  get_change_statistics (mark_as_synced now ids t) = get_change_statistics t.
Proof.
  intros Hall. eapply get_change_statistics_rows.
  - apply rows_of_mark_as_synced.
  - apply Forall_forall. intros [k r] Hkr. simpl.
    case_decide as Hin; [|done]. split; [done|]. simpl.
    rewrite Forall_forall in Hall. symmetry. apply (Hall k Hin).
    by apply elem_of_map_to_list.
Qed.

Lemma mark_as_synced_delivered_pending now ids t :
  Forall (λ id, ∀ r, t !! id = Some r → synced r = 1) ids →
  pending_ids (mark_as_synced now ids t) = pending_ids t.
Proof.
  intros Hall. rewrite pending_ids_mark_as_synced.
  apply filter_all_in. intros id Hid Hin.
  apply elem_of_pending_ids in Hid as [r [Hr Hs]].
  rewrite Forall_forall in Hall. specialize (Hall id Hin r Hr). lia.
Qed.

Lemma set_synced_twice now now' r :
  set_synced now' (set_synced now r) = set_synced now' r.
Proof. done. Qed.

Lemma mark_as_synced_twice now now' ids t :
  mark_as_synced now' ids (mark_as_synced now ids t)
  = mark_as_synced now' ids t.
Proof.
  apply map_eq. intros id. rewrite !lookup_mark_as_synced.
  destruct (t !! id) as [r|]; [|done]. simpl.
  by case_decide.
Qed.

Lemma mark_as_synced_marked now ids t :
  Forall (λ id, ∀ r, mark_as_synced now ids t !! id = Some r → synced r = 1)
    ids.
Proof.
  apply Forall_forall. intros id Hin r. rewrite lookup_mark_as_synced.
  destruct (t !! id) as [r0|]; [|done]. simpl.
  rewrite decide_True by done. by intros [= <-].
Qed.

(** The call returns for ids that bind, with the log of
    [mark_as_synced]; when it returns, its ids were bound. *)
Lemma mark_as_synced_call_bindable max_vars now ids (t : cdc_table) :
  bindable max_vars ids →
  mark_as_synced_call max_vars now ids t = Ok (mark_as_synced now ids t).
Proof.
  intros [Hlen Hall]. unfold mark_as_synced_call, mark_as_synced.
  destruct ids as [|id ids]; [done|].
  rewrite decide_False by lia. by rewrite decide_True.
Qed.

Lemma mark_as_synced_call_ok max_vars now ids (t t' : cdc_table) :
  mark_as_synced_call max_vars now ids t = Ok t' →
  t' = mark_as_synced now ids t ∧ (ids = [] ∨ bindable max_vars ids).
Proof.
  unfold mark_as_synced_call, mark_as_synced, bindable.
  destruct ids as [|id ids]; [intros [= <-]; by split; [|left]|].
  case_decide as Hlen; [done|]. case_decide as Hall; [|done].
  intros [= <-]. split; [done|]. right. split; [lia|done].
Qed.

Lemma mark_as_synced_call_again max_vars now now' ids (t t1 : cdc_table) :
  mark_as_synced_call max_vars now ids t = Ok t1 →
  ∀ t0, mark_as_synced_call max_vars now' ids t0
        = Ok (mark_as_synced now' ids t0).
Proof.
  intros Hcall t0. apply mark_as_synced_call_ok in Hcall as [_ [->|Hbind]];
    [done|by apply mark_as_synced_call_bindable].
Qed.

(** C4, as stated, fails on the code.  Marking an id that is already
    delivered changes the log, because the UPDATE writes
    [sync_timestamp = CURRENT_TIMESTAMP] again: record 1 of the sample log
    is delivered at time 10 and named again at time 20.  And an unknown
    id is an error when it does not fit 64 bits: the log holds no record
    [2 ^ 63], and naming it raises [OverflowError]. *)
Lemma mark_as_synced_again_changes_log :
  (∃ t1 t2,
     mark_as_synced_call 999 10 [1] (cdc_rows Sample.source) = Ok t1
     ∧ mark_as_synced_call 999 20 [1] t1 = Ok t2
     ∧ t2 ≠ t1)
  ∧ cdc_rows Sample.source !! (2 ^ 63) = None
  ∧ mark_as_synced_call 999 10 [2 ^ 63] (cdc_rows Sample.source)
    = Raise OverflowError.
Proof.
  split; [|split; vm_compute; reflexivity].
  exists (mark_as_synced 10 [1] (cdc_rows Sample.source)),
         (mark_as_synced 20 [1]
            (mark_as_synced 10 [1] (cdc_rows Sample.source))).
  split; [vm_compute; reflexivity|]. split; [vm_compute; reflexivity|].
  intros Heq.
  assert (Hts : sync_timestamp <$>
                  mark_as_synced 20 [1]
                    (mark_as_synced 10 [1] (cdc_rows Sample.source)) !! 1
                = Some (Some 20)) by (vm_compute; reflexivity).
  rewrite Heq in Hts. vm_compute in Hts. discriminate Hts.
Qed.

(** C4, amended: mark-delivered is idempotent up to [sync_timestamp], for
    ids the database can bind.  An empty id list is a no-op.  With ids
    that bind (64-bit integers, no more of them than the engine allows
    [?] in a statement): ids the log does not hold raise nothing and
    change nothing; for ids that are already delivered (or unknown) the
    call returns, and the statistics, the pending records, the keys of
    the log and every column other than [sync_timestamp] stay as they
    are, and rows that are not named stay as they are.  When a call
    returned, the same call made again returns and leaves the state the
    later call alone leaves, hence the same state as calling it once
    when both calls read the same clock, and in any case the same
    statistics and pending records as calling it once.  A non-empty list
    that does not bind raises, and the log is as it was. *)
Theorem mark_as_synced_idempotent max_vars now now' ids (t : cdc_table) :
  mark_as_synced_call max_vars now [] t = Ok t
  ∧ (bindable max_vars ids →
     (∀ id, id ∈ ids → t !! id = None) →
     mark_as_synced_call max_vars now ids t = Ok t)
  ∧ (bindable max_vars ids →
     Forall (λ id, ∀ r, t !! id = Some r → synced r = 1) ids →
     ∃ t1, mark_as_synced_call max_vars now ids t = Ok t1
           ∧ get_change_statistics t1 = get_change_statistics t
           ∧ pending_ids t1 = pending_ids t
           ∧ dom t1 = dom t
           ∧ ∀ id r, t !! id = Some r →
               ∃ r', t1 !! id = Some r'
                     ∧ same_but_timestamp r r' ∧ (id ∉ ids → r' = r))
  ∧ (∀ t1, mark_as_synced_call max_vars now ids t = Ok t1 →
       ∃ t2, mark_as_synced_call max_vars now' ids t1 = Ok t2
             ∧ mark_as_synced_call max_vars now' ids t = Ok t2
             ∧ (now' = now → t2 = t1)
             ∧ get_change_statistics t2 = get_change_statistics t1
             ∧ pending_ids t2 = pending_ids t1)
  ∧ (ids ≠ [] → ¬ bindable max_vars ids →
     ∃ e, mark_as_synced_call max_vars now ids t = Raise e
          ∧ (e = OverflowError ∨ e = DatabaseError)).
Proof.
  split; [done|]. split.
  { intros Hbind Hunknown.
    rewrite (mark_as_synced_call_bindable _ _ _ _ Hbind). f_equal.
    apply map_eq. intros id. rewrite lookup_mark_as_synced.
    destruct (t !! id) as [r|] eqn:Hr; [|done]. simpl.
    case_decide as Hin; [|done]. rewrite (Hunknown id Hin) in Hr. done. }
  split.
  { intros Hbind Hdel. eexists.
    split; [by apply mark_as_synced_call_bindable|].
    split; [by apply mark_as_synced_delivered_statistics|].
    split; [by apply mark_as_synced_delivered_pending|].
    split.
    - apply set_eq. intros id. rewrite !elem_of_dom, lookup_mark_as_synced.
      by rewrite fmap_is_Some.
    - intros id r Hr. rewrite lookup_mark_as_synced, Hr. simpl.
      eexists. split; [done|]. case_decide as Hin.
      + split; [|done]. split; [done|]. simpl. symmetry.
        rewrite Forall_forall in Hdel. by apply (Hdel id Hin).
      + done. }
  split.
  { intros t1 Hcall.
    pose proof (mark_as_synced_call_again _ _ now' _ _ _ Hcall) as Hagain.
    apply mark_as_synced_call_ok in Hcall as [-> _].
    exists (mark_as_synced now' ids (mark_as_synced now ids t)).
    split; [apply Hagain|].
    split; [rewrite Hagain; f_equal; symmetry; apply mark_as_synced_twice|].
    split; [intros ->; apply mark_as_synced_twice|].
    split.
    - apply mark_as_synced_delivered_statistics, mark_as_synced_marked.
    - apply mark_as_synced_delivered_pending, mark_as_synced_marked. }
  intros Hne Hnot. unfold mark_as_synced_call.
  destruct ids as [|id ids]; [done|].
  case_decide as Hlen; [eexists; split; [done|by right]|].
  case_decide as Hall; [|eexists; split; [done|by left]].
  destruct Hnot. split; [lia|done].
Qed.

(** ** Records are immutable but for their delivery columns *)

Lemma same_capture_refl r : same_capture r r.
Proof. by repeat split. Qed.

Lemma same_capture_trans r1 r2 r3 :
  same_capture r1 r2 → same_capture r2 r3 → same_capture r1 r3.
Proof.
  unfold same_capture. intros (?&?&?&?&?) (?&?&?&?&?).
  repeat split; congruence.
Qed.

Lemma delivery_forward_refl r : delivery_forward r r.
Proof. by left. Qed.

Lemma delivery_forward_trans r1 r2 r3 :
  delivery_forward r1 r2 → delivery_forward r2 r3 → delivery_forward r1 r3.
Proof.
  unfold delivery_forward. intros [[? ?]|?] [[? ?]|?].
  - left. split; congruence.
  - by right.
  - right. congruence.
  - by right.
Qed.

Lemma delivery_forward_stays r r' :
  delivery_forward r r' → synced r = 1 → synced r' = 1.
Proof. intros [[? ?]|?] ?; congruence. Qed.

Lemma max_key_ge (t : cdc_table) id r : t !! id = Some r → id ≤ max_key t.
Proof.
  intros Hr. unfold max_key.
  assert (Hin : id ∈ (map_to_list t).*1).
  { apply list_elem_of_fmap. exists (id, r). split; [done|].
    by apply elem_of_map_to_list. }
  induction ((map_to_list t).*1) as [|k ks IH]; simpl.
  - by apply not_elem_of_nil in Hin.
  - apply elem_of_cons in Hin as [->|Hin]; [lia|].
    specialize (IH Hin). lia.
Qed.

Lemma next_cdc_id_fresh s : cdc_rows s !! next_cdc_id s = None.
Proof.
  destruct (cdc_rows s !! next_cdc_id s) as [r|] eqn:Hr; [|done].
  apply max_key_ge in Hr. unfold next_cdc_id in Hr. lia.
Qed.

Lemma mark_as_synced_forward now ids (t : cdc_table) id r :
  t !! id = Some r →
  ∃ r', mark_as_synced now ids t !! id = Some r'
        ∧ same_capture r r' ∧ delivery_forward r r'.
Proof.
  intros Hr. rewrite lookup_mark_as_synced, Hr. simpl.
  eexists. split; [done|]. case_decide.
  - split; [by repeat split|by right].
  - split; [apply same_capture_refl|apply delivery_forward_refl].
Qed.

Section Invariant.

Variable json_loads : string → option json.
Variable json_object : list (string * sqlval) → string.

Lemma fire_trigger_keeps trg m now s s' id r :
  fire_trigger json_object trg m now s = Ok s' →
  cdc_rows s !! id = Some r → cdc_rows s' !! id = Some r.
Proof.
  unfold fire_trigger. intros Hfire Hr.
  destruct (column_value m _ _) as [|rid]; [done|]. simpl in Hfire.
  destruct (json_column json_object m OLD _) as [|old]; [done|].
  simpl in Hfire.
  destruct (json_column json_object m NEW _) as [|new]; [done|].
  simpl in Hfire. case_decide; [done|].
  injection Hfire as <-. simpl.
  rewrite lookup_insert_ne; [done|].
  intros Heq. pose proof (next_cdc_id_fresh s) as Hfresh.
  rewrite Heq in Hfresh. congruence.
Qed.

(** What [replicate_changes] does to the log is one [mark_as_synced]. *)
Lemma replicate_changes_source now batch_size s n s' calls :
  replicate_changes json_loads now batch_size s = Ok (n, s', calls) →
  ∃ ids, cdc_rows (sys_source s')
         = mark_as_synced now ids (cdc_rows (sys_source s)).
Proof.
  unfold replicate_changes. intros H.
  destruct (get_pending_changes _ _ _) as [|changes]; [done|].
  simpl in H. destruct changes as [|c cs].
  - injection H as <- <- <-. by exists [].
  - destruct (replicate_loop _ _ _) as [ids t].
    destruct ids as [|i ids].
    + injection H as <- <- <-. by exists [].
    + injection H as <- <- <-. by exists (i :: ids).
Qed.

Lemma step_forward now o s id r :
  cdc_rows (sys_source s) !! id = Some r →
  ∃ r', cdc_rows (sys_source (step json_loads json_object now o s)) !! id
          = Some r'
        ∧ same_capture r r' ∧ delivery_forward r r'.
Proof.
  intros Hr.
  assert (Hsame : ∃ r', cdc_rows (sys_source s) !! id = Some r'
                        ∧ same_capture r r' ∧ delivery_forward r r').
  { exists r. split; [done|].
    split; [apply same_capture_refl|apply delivery_forward_refl]. }
  destruct o as [tn cols|trg m|limit|ids| |batch_size| ]; simpl; try done.
  - destruct (fire_trigger json_object trg m now (sys_source s))
      as [|src] eqn:Hfire; [done|]. simpl.
    exists r. split; [by eapply fire_trigger_keeps|].
    split; [apply same_capture_refl|apply delivery_forward_refl].
  - by apply mark_as_synced_forward.
  - destruct (replicate_changes json_loads now batch_size s)
      as [|[[n s'] calls]] eqn:Hrep; [done|].
    apply replicate_changes_source in Hrep as [ids ->].
    by apply mark_as_synced_forward.
Qed.

Lemma run_ops_forward ops s id r :
  cdc_rows (sys_source s) !! id = Some r →
  ∃ r', cdc_rows (sys_source (run_ops json_loads json_object ops s)) !! id
          = Some r'
        ∧ same_capture r r' ∧ delivery_forward r r'.
Proof.
  revert s r. induction ops as [|[now o] ops IH]; intros s r Hr; simpl.
  - exists r. split; [done|].
    split; [apply same_capture_refl|apply delivery_forward_refl].
  - destruct (step_forward now o s id r Hr) as (r1 & Hr1 & Hc1 & Hd1).
    destruct (IH _ _ Hr1) as (r2 & Hr2 & Hc2 & Hd2).
    exists r2. split; [done|]. split.
    + by eapply same_capture_trans.
    + by eapply delivery_forward_trans.
Qed.

(** C7: whatever operations of the core run (setup, a capture hook
    firing, reading the pending records, mark-delivered, statistics,
    replication, the health report), a record that is in the log stays in
    it with the same operation, record_id, old_data, new_data and
    changed_at; its delivery columns are either untouched or the record
    is delivered, and a delivered record stays delivered. *)
Theorem appended_records_are_immutable ops s id r :
  cdc_rows (sys_source s) !! id = Some r →
  ∃ r', cdc_rows (sys_source (run_ops json_loads json_object ops s)) !! id
          = Some r'
        ∧ operation r' = operation r
        ∧ record_id r' = record_id r
        ∧ old_data r' = old_data r
        ∧ new_data r' = new_data r
        ∧ changed_at r' = changed_at r
        ∧ ((synced r' = synced r ∧ sync_timestamp r' = sync_timestamp r)
           ∨ synced r' = 1)
        ∧ (synced r = 1 → synced r' = 1).
Proof.
  intros Hr.
  destruct (run_ops_forward ops s id r Hr) as (r' & Hr' & Hc & Hd).
  exists r'. split; [done|].
  destruct Hc as (Ho & Hi & Hold & Hnew & Hat).
  do 5 (split; [done|]). split; [exact Hd|].
  by apply delivery_forward_stays.
Qed.

End Invariant.

(** ** Delivered records leave the pending scan and move in the statistics *)

Lemma filter_length_split {A} (P Q R : A → Prop)
    `{∀ x, Decision (P x)} `{∀ x, Decision (Q x)} `{∀ x, Decision (R x)}
    (l : list A) :
  (∀ x, x ∈ l → P x ↔ Q x ∨ R x) → (∀ x, x ∈ l → ¬ (Q x ∧ R x)) →
  length (filter P l) = (length (filter Q l) + length (filter R l))%nat.
Proof.
  induction l as [|x l IH]; intros Hiff Hdisj; [done|].
  rewrite !filter_cons.
  assert (Hx : P x ↔ Q x ∨ R x) by (apply Hiff; by left).
  assert (Hd : ¬ (Q x ∧ R x)) by (apply Hdisj; by left).
  assert (IH' : length (filter P l)
                = (length (filter Q l) + length (filter R l))%nat).
  { apply IH; intros y Hy; [apply Hiff|apply Hdisj]; by right. }
  repeat case_decide; simpl; rewrite ?IH'; tauto || lia.
Qed.


Section Delivery.

Variable json_loads : string → option json.
Variable json_object : list (string * sqlval) → string.


End Delivery.

(** ** Setup is idempotent *)

Lemma installed_noop s c : installed s c → execute_ddl s c = Ok c.
Proof.
  destruct s as [name cols|name on cols|name body]; simpl.
  - intros Hs. by rewrite decide_True.
  - intros ([tcols Ht] & Hn & Hi). rewrite Ht.
    rewrite decide_False by (rewrite Hn; by intros [? ?]).
    by rewrite decide_True.
  - intros ([tcols Ht] & Hi). rewrite Ht. by rewrite decide_True.
Qed.

Lemma execute_ddl_installs s c c' :
  execute_ddl s c = Ok c' → installed s c'.
Proof.
  destruct s as [name cols|name on cols|name body]; simpl.
  - repeat case_decide; intros [= <-]; simpl; try done.
    rewrite lookup_insert_eq. by eexists.
  - destruct (cat_tables c !! on) as [tcols|] eqn:Ht; [|done].
    repeat case_decide; intros [= <-]; simpl; try done.
    + split; [by eexists|]. split; [|done].
      by apply eq_None_not_Some.
    + split; [by eexists|]. split; [by apply eq_None_not_Some|].
      rewrite lookup_insert_eq. by eexists.
  - destruct (cat_tables c !! trg_on body) as [tcols|] eqn:Ht; [|done].
    case_decide; intros [= <-]; simpl.
    + split; [by eexists|done].
    + split; [by eexists|]. rewrite lookup_insert_eq. by eexists.
Qed.

(** A statement only adds to the catalogue, and never a table under the
    name of an index. *)
Lemma installed_mono s s' c c' :
  installed s c → execute_ddl s' c = Ok c' → installed s c'.
Proof.
  intros Hs Hx.
  assert (Htab : ∀ n, is_Some (cat_tables c !! n) →
                      is_Some (cat_tables c' !! n)).
  { intros n Hn. destruct s' as [name cols|name on cols|name body];
      simpl in Hx.
    - ddl_cases Hx; simpl; try done.
      destruct (decide (name = n)) as [->|Hne]; [done|].
      by rewrite lookup_insert_ne.
    - destruct (cat_tables c !! on); [|done].
      by ddl_cases Hx.
    - destruct (cat_tables c !! trg_on body); [|done].
      by ddl_cases Hx. }
  assert (Hidx : ∀ n, is_Some (cat_indexes c !! n) →
                      is_Some (cat_indexes c' !! n)
                      ∧ (cat_tables c !! n = None →
                         cat_tables c' !! n = None)).
  { intros n Hn. destruct s' as [name cols|name on cols|name body];
      simpl in Hx.
    - ddl_cases Hx; simpl; try done.
      split; [done|]. intros Hnone.
      destruct (decide (name = n)) as [->|Hne]; [done|].
      by rewrite lookup_insert_ne.
    - destruct (cat_tables c !! on); [|done].
      ddl_cases Hx; simpl; try done.
      split; [|done].
      destruct (decide (name = n)) as [->|Hne]; [done|].
      by rewrite lookup_insert_ne.
    - destruct (cat_tables c !! trg_on body); [|done].
      by ddl_cases Hx. }
  assert (Htrg : ∀ n, is_Some (cat_triggers c !! n) →
                      is_Some (cat_triggers c' !! n)).
  { intros n Hn. destruct s' as [name cols|name on cols|name body];
      simpl in Hx.
    - by ddl_cases Hx.
    - destruct (cat_tables c !! on); [|done].
      by ddl_cases Hx.
    - destruct (cat_tables c !! trg_on body); [|done].
      ddl_cases Hx; simpl; try done.
      destruct (decide (name = n)) as [->|Hne].
      + rewrite lookup_insert_eq. by eexists.
      + by rewrite lookup_insert_ne. }
  destruct s as [name cols|name on cols|name body]; simpl in *.
  - by apply Htab.
  - destruct Hs as (Ht & Hn & Hi). split; [by apply Htab|].
    destruct (Hidx name Hi) as [Hi' Hn']. split; [by apply Hn'|done].
  - destruct Hs as (Ht & Hi). split; [by apply Htab|by apply Htrg].
Qed.

Lemma run_execute s c :
  run (execute s) c
  = match execute_ddl s c with
    | Ok c' => (c', Ok ())
    | Raise e => (c, Raise e)
    end.
Proof. done. Qed.

Lemma run_script_cons_ok s rest c :
  run (run_script (Ok s :: rest)) c
  = match execute_ddl s c with
    | Ok c' => run (run_script rest) c'
    | Raise e => (c, Raise e)
    end.
Proof.
  simpl. unfold mbind, conn_bind. simpl.
  by destruct (execute_ddl s c).
Qed.

Lemma run_script_installed pre script c :
  Forall (λ s, installed s c) pre →
  run (run_script ((Ok <$> pre) ++ script)) c = run (run_script script) c.
Proof.
  induction 1 as [|s pre Hs _ IH]; [done|].
  rewrite fmap_cons, <- app_comm_cons, run_script_cons_ok.
  by rewrite (installed_noop _ _ Hs).
Qed.

(** Running a script again, from the catalogue it left, changes nothing
    and ends the same way. *)
Lemma run_script_replay pre script c c1 r1 :
  Forall (λ s, installed s c) pre →
  run (run_script script) c = (c1, r1) →
  run (run_script ((Ok <$> pre) ++ script)) c1 = (c1, r1).
Proof.
  revert pre c. induction script as [|[e|s] rest IH]; intros pre c Hpre Hrun.
  - injection Hrun as <- <-. by rewrite run_script_installed.
  - injection Hrun as <- <-. by rewrite run_script_installed.
  - rewrite run_script_cons_ok in Hrun.
    destruct (execute_ddl s c) as [e|c'] eqn:Hx.
    + injection Hrun as <- <-. rewrite run_script_installed by done.
      by rewrite run_script_cons_ok, Hx.
    + specialize (IH (pre ++ [s]) c').
      rewrite fmap_app, <- app_assoc in IH. apply IH; [|done].
      apply Forall_app. split.
      * eapply Forall_impl; [exact Hpre|].
        intros s0 Hs0. by apply (installed_mono s0 s c c').
      * constructor; [|constructor]. by apply (execute_ddl_installs s c c').
Qed.

Lemma run_seq {A} (m : conn A) (k : conn unit) c :
  run (m;; k) c
  = match run m c with
    | (c', Ok _) => run k c'
    | (c', Raise e) => (c', Raise e)
    end.
Proof. done. Qed.

Lemma run_script_cons x rest c :
  run (run_script (x :: rest)) c
  = match run (run_script [x]) c with
    | (c', Ok _) => run (run_script rest) c'
    | (c', Raise e) => (c', Raise e)
    end.
Proof.
  destruct x as [e|s]; [done|].
  rewrite !run_script_cons_ok. by destruct (execute_ddl s c).
Qed.

Lemma create_insert_trigger_as_script table_name columns c :
  run (_create_insert_trigger table_name columns) c
  = run (run_script
           [trigger_statement table_name "_insert_trigger" AfterInsert
              "INSERT" NEW None (Some columns) columns]) c.
Proof.
  destruct columns as [|c0 cols]; [done|].
  unfold _create_insert_trigger, trigger_statement, first_column.
  rewrite run_script_cons_ok. simpl. unfold mbind, conn_bind. simpl.
  repeat case_match; by simplify_eq.
Qed.

Lemma create_update_trigger_as_script table_name columns c :
  run (_create_update_trigger table_name columns) c
  = run (run_script
           [trigger_statement table_name "_update_trigger" AfterUpdate
              "UPDATE" NEW (Some columns) (Some columns) columns]) c.
Proof.
  destruct columns as [|c0 cols]; [done|].
  unfold _create_update_trigger, trigger_statement, first_column.
  rewrite run_script_cons_ok. simpl. unfold mbind, conn_bind. simpl.
  repeat case_match; by simplify_eq.
Qed.

Lemma create_delete_trigger_as_script table_name columns c :
  run (_create_delete_trigger table_name columns) c
  = run (run_script
           [trigger_statement table_name "_delete_trigger" AfterDelete
              "DELETE" OLD (Some columns) None columns]) c.
Proof.
  destruct columns as [|c0 cols]; [done|].
  unfold _create_delete_trigger, trigger_statement, first_column.
  rewrite run_script_cons_ok. simpl. unfold mbind, conn_bind. simpl.
  repeat case_match; by simplify_eq.
Qed.

Lemma setup_as_script table_name columns c :
  run (setup_trigger_based_cdc table_name columns) c
  = run (run_script (setup_script table_name columns)) c.
Proof.
  unfold setup_trigger_based_cdc, setup_script.
  rewrite run_script_cons_ok, run_seq, run_execute.
  destruct (execute_ddl _ c) as [e|c1]; [done|].
  rewrite run_script_cons_ok, run_seq, run_execute.
  destruct (execute_ddl _ c1) as [e|c2]; [done|].
  rewrite run_seq. change (run commit c2) with (c2, Ok ()). cbv beta iota.
  rewrite run_script_cons, run_seq, create_insert_trigger_as_script.
  destruct (run (run_script [_]) c2) as [c3 [e|[]]]; [done|]. cbv beta iota.
  rewrite run_script_cons, run_seq, create_update_trigger_as_script.
  destruct (run (run_script [_]) c3) as [c4 [e|[]]]; [done|]. cbv beta iota.
  by rewrite create_delete_trigger_as_script.
Qed.

(** The first call, in the database of the test fixture, succeeds and
    leaves the log table, its index and the three triggers. *)
Example setup_on_fixture :
  (run (setup_trigger_based_cdc "test_table" Sample.columns)
     Sample.catalog0).2 = Ok ()
  ∧ dom (cat_tables Sample.catalog1) = {[ "test_table"; "test_table_cdc" ]}
  ∧ dom (cat_indexes Sample.catalog1) = {[ "idx_test_table_cdc_synced" ]}
  ∧ dom (cat_triggers Sample.catalog1)
    = {[ "test_table_insert_trigger"; "test_table_update_trigger";
         "test_table_delete_trigger" ]}
  ∧ cat_triggers Sample.catalog1 !! "test_table_insert_trigger"
    = Some Sample.insert_trigger
  ∧ cat_triggers Sample.catalog1 !! "test_table_update_trigger"
    = Some Sample.update_trigger
  ∧ cat_triggers Sample.catalog1 !! "test_table_delete_trigger"
    = Some Sample.delete_trigger.
Proof. repeat (split; [vm_compute; reflexivity|]). vm_compute. reflexivity. Qed.

(** C8: calling [setup_trigger_based_cdc] again with the same relation and
    columns changes nothing: the catalogue the second call leaves, and the
    way it ends, are those of the first call, from any catalogue and
    whether the first call succeeded or raised; so after any number of
    calls the tables, indexes and triggers are those one call leaves. *)
Theorem setup_trigger_based_cdc_idempotent table_name columns c :
  run (setup_trigger_based_cdc table_name columns)
    (run (setup_trigger_based_cdc table_name columns) c).1
  = run (setup_trigger_based_cdc table_name columns) c
  ∧ ∀ n, setup_repeatedly (S n) table_name columns c
         = (run (setup_trigger_based_cdc table_name columns) c).1.
Proof.
  assert (Hidem : ∀ c0,
            run (setup_trigger_based_cdc table_name columns)
              (run (setup_trigger_based_cdc table_name columns) c0).1
            = run (setup_trigger_based_cdc table_name columns) c0).
  { intros c0. rewrite !setup_as_script.
    destruct (run (run_script (setup_script table_name columns)) c0)
      as [c1 r1] eqn:Hrun. unfold fst.
    apply (run_script_replay [] _ c0 c1 r1); [constructor|done]. }
  split; [apply Hidem|].
  intros n. revert c. induction n as [|n IH]; intros c; [done|].
  change (setup_repeatedly (S (S n)) table_name columns c)
    with (setup_repeatedly (S n) table_name columns
            (run (setup_trigger_based_cdc table_name columns) c).1).
  by rewrite IH, Hidem.
Qed.

(** ** Replication *)

Lemma replicate_loop_acc changes t acc :
  replicate_loop changes t acc
  = (acc ++ (replicate_loop changes t []).1, (replicate_loop changes t []).2).
Proof.
  revert t acc. induction changes as [|c cs IH]; intros t acc; simpl.
  - by rewrite app_nil_r.
  - destruct (apply_change c t) as [e|t'].
    + apply IH.
    + rewrite (IH t' (acc ++ [ch_cdc_id c])), (IH t' [ch_cdc_id c]).
      simpl. by rewrite <- app_assoc.
Qed.

(** The loop always ends, and ends in the outcome of the batch. *)
Lemma replicate_loop_outcome changes t :
  ∃ ids failed t',
    replicate_loop changes t [] = (ids, t')
    ∧ batch_outcome t changes ids failed t'.
Proof.
  revert t. induction changes as [|c cs IH]; intros t.
  - exists [], [], t. split; [done|constructor].
  - simpl. destruct (apply_change c t) as [e|t1] eqn:Hc.
    + destruct (IH t) as (ids & failed & t' & Hloop & Hout).
      exists ids, (c :: failed), t'. split; [done|].
      by eapply outcome_failed.
    + destruct (IH t1) as (ids & failed & t' & Hloop & Hout).
      exists (ch_cdc_id c :: ids), failed, t'. split.
      * rewrite replicate_loop_acc, Hloop. done.
      * by eapply outcome_applied.
Qed.




Lemma batch_outcome_all_failed t cs :
  Forall (λ c, is_ok (apply_change c t) = false) cs →
  batch_outcome t cs [] cs t.
Proof.
  induction 1 as [|c cs Hc _ IH]; [constructor|].
  destruct (apply_change c t) as [e|t'] eqn:Happ; [|done].
  by eapply outcome_failed.
Qed.

Lemma batch_outcome_all_failed_inv t cs ids failed t' :
  batch_outcome t cs ids failed t' →
  Forall (λ c, is_ok (apply_change c t) = false) cs →
  ids = [] ∧ failed = cs ∧ t' = t.
Proof.
  induction 1 as [|t t1 t2 c cs ids failed Hc _ IH
                  |t t2 e c cs ids failed Hc _ IH]; intros Hfail.
  - done.
  - apply Forall_cons in Hfail as [Hf _]. by rewrite Hc in Hf.
  - apply Forall_cons in Hfail as [_ Hf].
    destruct (IH Hf) as (-> & -> & ->). done.
Qed.



Section Replication.

Variable json_loads : string → option json.

(** [replicate_changes] in one equation: the outcome of the batch it
    fetched decides the count, the calls and the state left. *)
Lemma replicate_changes_result now batch_size s changes :
  get_pending_changes json_loads (Some batch_size) (cdc_rows (sys_source s))
    = Ok changes →
  ∃ ids failed t',
    batch_outcome (tgt_live (sys_target s)) changes ids failed t'
    ∧ replicate_changes json_loads now batch_size s
      = Ok (Z.of_nat (length ids),
            {| sys_catalog := sys_catalog s;
               sys_source :=
                 with_cdc_rows (sys_source s)
                   (mark_as_synced now ids (cdc_rows (sys_source s)));
               sys_target := target_after ids t' (sys_target s) |},
            calls_after ids).
Proof.
  intros Hget. unfold replicate_changes. rewrite Hget. simpl.
  destruct (replicate_loop_outcome changes (tgt_live (sys_target s)))
    as (ids & failed & t' & Hloop & Hout).
  exists ids, failed, t'. split; [done|].
  destruct changes as [|c cs].
  - inversion Hout; subst. simpl.
    destruct s as [cat [rows seq] [live committed]]. done.
  - rewrite Hloop. destruct ids as [|i ids]; [|done].
    simpl. destruct s as [cat [rows seq] [live committed]]. done.
Qed.

(** C10: when every record of the batch fetched fails to apply,
    [replicate_changes] returns 0, makes neither the mark-as-synced call
    nor the commit on the target, and leaves the whole state as it was;
    and whenever a call of [replicate_changes] does commit on the target
    (or calls mark-as-synced), the count it returns is positive. *)
Theorem replicate_changes_all_failed now batch_size s changes :
  get_pending_changes json_loads (Some batch_size) (cdc_rows (sys_source s))
    = Ok changes →
  changes ≠ [] →
  Forall (λ c, is_ok (apply_change c (tgt_live (sys_target s))) = false)
    changes →
  replicate_changes json_loads now batch_size s = Ok (0, s, [])
  ∧ ∀ now' batch_size' s0 n s' calls,
      replicate_changes json_loads now' batch_size' s0 = Ok (n, s', calls) →
      (CallTargetCommit ∈ calls ∨ (∃ ids, CallMarkAsSynced ids ∈ calls)) →
      0 < n
      ∧ tgt_committed (sys_target s') = tgt_live (sys_target s').
Proof.
  intros Hget Hne Hfail. split.
  - destruct (replicate_changes_result now batch_size s changes Hget)
      as (ids & failed & t' & Hout & Hrep).
    rewrite Hrep. clear Hrep Hget Hne.
    destruct (batch_outcome_all_failed_inv _ _ _ _ _ Hout Hfail)
      as (-> & _ & ->). simpl.
    destruct s as [cat [rows seq] [live committed]]. done.
  - intros now' batch_size' s0 n s' calls Hrep Hcalls.
    unfold replicate_changes in Hrep.
    destruct (get_pending_changes json_loads (Some batch_size')
                (cdc_rows (sys_source s0))) as [e|cs]; [done|].
    simpl in Hrep. destruct cs as [|c cs].
    { simplify_eq.
      destruct Hcalls as [H|[ids H]]; by apply not_elem_of_nil in H. }
    destruct (replicate_loop _ _ _) as [ids t'].
    destruct ids as [|i ids].
    { simplify_eq.
      destruct Hcalls as [H|[ids H]]; by apply not_elem_of_nil in H. }
    simplify_eq. simpl. split; [lia|done].
Qed.



End Replication.

(** ** Applying a record to the target *)

Lemma bind_params_lookup (m : gmap string json) (r : row) k :
  bind_params m = Ok r → r !! k = m !! k ≫= bind_param.
Proof.
  unfold bind_params. case_decide; [|done].
  intros [= <-]. apply lookup_omap.
Qed.

Lemma bind_params_bound (m : gmap string json) (r : row) k j :
  bind_params m = Ok r → m !! k = Some j → bind_param j = Some (col r k).
Proof.
  unfold bind_params. case_decide as Hall; [|done].
  intros [= <-] Hk. destruct (Hall k j Hk) as [x Hx].
  unfold col. rewrite lookup_omap, Hk. simpl. by rewrite Hx.
Qed.

Lemma sql_eq_int_refl k : sql_eq (SInt k) (SInt k) = true.
Proof. simpl. by rewrite bool_decide_eq_true. Qed.

Lemma sql_eq_true a b : sql_eq a b = true → a = b ∧ a ≠ SNull.
Proof.
  destruct a, b; simpl; try done;
    rewrite bool_decide_eq_true; by intros ->.
Qed.

(** INSERT OR REPLACE with an integer key: the row replaces whatever had
    that key, and doing it again changes nothing. *)
Lemma insert_or_replace_idempotent (m : gmap string json) (r : row) k t :
  m ≠ ∅ → known_columns t (dom m) → bind_params m = Ok r →
  col r (t_pk t) = SInt k →
  ∃ t1, execute_dml (InsertOrReplace m) t = Ok t1
        ∧ t_rows t1
          = filter (λ r', sql_eq (col r' (t_pk t)) (SInt k) = false)
              (t_rows t) ++ [r]
        ∧ execute_dml (InsertOrReplace m) t1 = Ok t1
        ∧ filter (λ r', sql_eq (col r' (t_pk t)) (SInt k) = true)
            (t_rows t1) = [r].
Proof.
  intros Hne Hknown Hbind Hk. eexists. split; [|split; [|split]].
  - simpl. rewrite decide_False, decide_True by done.
    rewrite Hbind. simpl. by rewrite Hk.
  - done.
  - simpl. rewrite decide_False, decide_True by done.
    rewrite Hbind. simpl. rewrite Hk. unfold with_rows. simpl. do 2 f_equal.
    rewrite filter_app, filter_cons, filter_nil.
    rewrite decide_False by (rewrite Hk, sql_eq_int_refl; done).
    rewrite app_nil_r. f_equal.
    apply filter_all_in. intros r' Hr'.
    by apply list_elem_of_filter in Hr' as [? _].
  - simpl. rewrite filter_app, filter_cons, filter_nil.
    rewrite decide_True by (by rewrite Hk, sql_eq_int_refl).
    rewrite filter_none_in; [done|].
    intros r' Hr'. apply list_elem_of_filter in Hr' as [Hf _].
    by rewrite Hf.
Qed.

(** C2, as stated, fails on the code: the UPDATE and DELETE statements
    name the key column [id], whatever the primary key of the relation is.
    For the relation [users (user_id, name)] the UPDATE record that the
    capture trigger wrote raises [KeyError] in [_apply_update], so the row
    whose primary key is 1 keeps its old name. *)
Lemma update_of_relation_without_id_column :
  get_pending_changes Codec.loads None (cdc_rows Sample.users_source)
    = Ok [Sample.users_insert_change; Sample.users_update_change]
  ∧ apply_change Sample.users_insert_change Sample.users_replica
    = Ok Sample.users_replica1
  ∧ apply_change Sample.users_update_change Sample.users_replica1
    = Raise KeyError
  ∧ ¬ ∃ t1, apply_change Sample.users_update_change Sample.users_replica1
              = Ok t1.
Proof.
  split; [vm_compute; reflexivity|].
  split; [vm_compute; reflexivity|].
  assert (Hraise : apply_change Sample.users_update_change
                     Sample.users_replica1 = Raise KeyError)
    by (vm_compute; reflexivity).
  split; [exact Hraise|].
  intros [t1 Ht1]. rewrite Hraise in Ht1. discriminate Ht1.
Qed.

Lemma col_union (a r : row) k :
  col (a ∪ r) k = match a !! k with Some x => x | None => col r k end.
Proof.
  unfold col. destruct (a !! k) as [x|] eqn:Ha.
  - by rewrite (lookup_union_Some_l a r k x Ha).
  - by rewrite lookup_union_r.
Qed.

Lemma apply_insert_idempotent c t (m : gmap string json) (r : row) k :
  ch_operation c = "INSERT" → ch_new_data c = JObj m →
  known_columns t (dom m) → bind_params m = Ok r →
  col r (t_pk t) = SInt k →
  ∃ t1, apply_change c t = Ok t1
        ∧ t_rows t1
          = filter (λ r', sql_eq (col r' (t_pk t)) (SInt k) = false)
              (t_rows t) ++ [r]
        ∧ apply_change c t1 = Ok t1
        ∧ filter (λ r', sql_eq (col r' (t_pk t)) (SInt k) = true)
            (t_rows t1) = [r].
Proof.
  intros Hop Hdata Hknown Hbind Hk.
  assert (Hne : m ≠ ∅).
  { intros ->. unfold bind_params in Hbind.
    rewrite decide_True in Hbind by apply map_Forall_empty.
    injection Hbind as <-. unfold col in Hk.
    by rewrite omap_empty, lookup_empty in Hk. }
  destruct (insert_or_replace_idempotent m r k t Hne Hknown Hbind Hk)
    as (t1 & H1 & H2 & H3 & H4).
  assert (Hins : ∀ t0, apply_change c t0
                       = execute_dml (InsertOrReplace m) t0).
  { intros t0. unfold apply_change, _apply_insert.
    rewrite decide_True by done. by rewrite Hdata. }
  exists t1. by rewrite !Hins.
Qed.

Lemma apply_update_effect c t (m : gmap string json) id v :
  ch_operation c = "UPDATE" → ch_new_data c = JObj m →
  m !! "id" = Some id → bind_param id = Some v →
  map_Forall (λ _ j, is_Some (bind_param j)) m →
  delete "id" m ≠ ∅ → known_columns t (dom m) →
  t_pk t = "id" ∨ m !! t_pk t = None →
  apply_change c t
  = Ok (with_rows t
          ((λ r, if sql_eq (col r "id") v
                 then omap bind_param (delete "id" m) ∪ r else r)
           <$> t_rows t)).
Proof.
  intros Hop Hdata Hid Hv Hbind Hne Hknown Hpk.
  unfold apply_change, _apply_update.
  rewrite decide_False by (rewrite Hop; done).
  rewrite decide_True by done. rewrite Hdata. simpl. rewrite Hid.
  simpl. rewrite decide_False by done.
  rewrite decide_True.
  - unfold bind_params. rewrite decide_True.
    + simpl. rewrite Hv. rewrite decide_False; [done|].
      intros [[x Hx] _]. rewrite lookup_omap in Hx.
      destruct Hpk as [Hpk|Hpk].
      * by rewrite Hpk, lookup_delete_eq in Hx.
      * destruct (decide (t_pk t = "id")) as [Heq|Hneq].
        -- by rewrite Heq, lookup_delete_eq in Hx.
        -- by rewrite lookup_delete_ne, Hpk in Hx.
    + intros k j Hk. apply lookup_delete_Some in Hk as [_ Hk].
      by apply (Hbind k j).
  - split.
    + intros k Hk. apply Hknown. apply elem_of_dom.
      apply elem_of_dom in Hk as [j Hj].
      apply lookup_delete_Some in Hj as [_ Hj]. by exists j.
    + apply Hknown. apply elem_of_dom. by exists id.
Qed.

Lemma apply_delete_effect c t :
  ch_operation c = "DELETE" → "id" ∈ t_columns t →
  apply_change c t
  = Ok (with_rows t
          (filter (λ r, sql_eq (col r "id") (ch_record_id c) = false)
             (t_rows t))).
Proof.
  intros Hop Hid. unfold apply_change, _apply_delete.
  rewrite !decide_False by (rewrite Hop; done).
  rewrite decide_True by done. simpl. by rewrite decide_True.
Qed.

(** C2, amended: the key column of UPDATE and DELETE is the column named
    [id].  An INSERT record replaces, in the target, the rows whose
    primary key equals the one its new_image carries by the new_image, so
    applying it again raises nothing and leaves the same table, with one
    row of that key.  An UPDATE record whose new_image has an [id] sets,
    in every target row whose column [id] equals that value, the other
    columns of new_image, and leaves the [id] of the row, its remaining
    columns and all other rows as they are.  A DELETE record removes the
    target rows whose column [id] equals record_id and no other. *)
Theorem apply_change_keyed_by_id (c : change) (t : table) :
  (∀ (m : gmap string json) (r : row) k,
     ch_operation c = "INSERT" → ch_new_data c = JObj m →
     known_columns t (dom m) → bind_params m = Ok r →
     col r (t_pk t) = SInt k →
     ∃ t1, apply_change c t = Ok t1
           ∧ t_rows t1
             = filter (λ r', sql_eq (col r' (t_pk t)) (SInt k) = false)
                 (t_rows t) ++ [r]
           ∧ apply_change c t1 = Ok t1
           ∧ filter (λ r', sql_eq (col r' (t_pk t)) (SInt k) = true)
               (t_rows t1) = [r])
  ∧ (∀ (m : gmap string json) id v,
       ch_operation c = "UPDATE" → ch_new_data c = JObj m →
       m !! "id" = Some id → bind_param id = Some v →
       map_Forall (λ _ j, is_Some (bind_param j)) m →
       delete "id" m ≠ ∅ → known_columns t (dom m) →
       t_pk t = "id" ∨ m !! t_pk t = None →
       ∃ t1, apply_change c t = Ok t1
             ∧ length (t_rows t1) = length (t_rows t)
             ∧ ∀ i r, t_rows t !! i = Some r →
                 ∃ r1, t_rows t1 !! i = Some r1
                       ∧ (sql_eq (col r "id") v = false → r1 = r)
                       ∧ (sql_eq (col r "id") v = true →
                          col r1 "id" = col r "id"
                          ∧ (∀ k j, k ≠ "id" → m !! k = Some j →
                                    bind_param j = Some (col r1 k))
                          ∧ (∀ k, m !! k = None → col r1 k = col r k)))
  ∧ (ch_operation c = "DELETE" → "id" ∈ t_columns t →
     ∃ t1, apply_change c t = Ok t1
           ∧ t_rows t1
             = filter (λ r, sql_eq (col r "id") (ch_record_id c) = false)
                 (t_rows t)
           ∧ ∀ r, r ∈ t_rows t1
                  ↔ r ∈ t_rows t
                    ∧ sql_eq (col r "id") (ch_record_id c) = false).
Proof.
  split; [|split].
  - intros m r k. apply apply_insert_idempotent.
  - intros m id v Hop Hdata Hid Hv Hbind Hne Hknown Hpk.
    eexists. split; [by eapply apply_update_effect|].
    simpl. split; [by rewrite length_fmap|].
    intros i r Hr. rewrite list_lookup_fmap, Hr. simpl.
    eexists. split; [done|].
    destruct (sql_eq (col r "id") v) eqn:Heq; (split; [done|]); [|done].
    intros _. rewrite !col_union, lookup_omap, lookup_delete_eq. simpl.
    split; [done|]. split.
    + intros k j Hk Hj. rewrite col_union, lookup_omap.
      rewrite lookup_delete_ne by done. rewrite Hj. simpl.
      destruct (Hbind k j Hj) as [x Hx]. by rewrite Hx.
    + intros k Hk. rewrite col_union, lookup_omap.
      destruct (decide (k = "id")) as [->|Hkid].
      * by rewrite lookup_delete_eq.
      * by rewrite lookup_delete_ne, Hk.
  - intros Hop Hid. eexists. split; [by apply apply_delete_effect|].
    simpl. split; [done|]. intros r. by rewrite list_elem_of_filter, (comm and).
Qed.

(** ** The limit of [get_pending_changes] *)




Section Limits.

Variable json_loads : string → option json.


(** C9: a limit of 0 is no limit.  [get_pending_changes(limit=0)] sends
    the query without a LIMIT clause, is the same call as
    [get_pending_changes()], and on a log whose documents decode returns
    every pending record: as many records as there are pending ids. *)
Theorem get_pending_changes_limit_zero (t : cdc_table) :
  limit_clause (Some 0) = None
  ∧ get_pending_changes json_loads (Some 0) t
    = get_pending_changes json_loads None t
  ∧ (decodable json_loads t →
     ∃ cs, get_pending_changes json_loads (Some 0) t = Ok cs
           ∧ ch_cdc_id <$> cs = pending_ids t
           ∧ length cs = length (pending_ids t)
           ∧ ∀ id r, t !! id = Some r → synced r = 0 →
                     id ∈ ch_cdc_id <$> cs).
Proof.
  split; [done|]. split; [done|]. intros Hdec.
  destruct (get_pending_changes_returns json_loads (Some 0) t Hdec)
    as (cs & Hget & Hids & _).
  exists cs. split; [done|].
  change (expected_ids (Some 0) t) with (pending_ids t) in Hids.
  split; [done|]. split.
  - by rewrite <- Hids, length_fmap.
  - intros id r Hr Hs. rewrite Hids. apply elem_of_pending_ids. eauto.
Qed.

End Limits.

(** C5 at the input where the code leaves it: with [limit = 0] the three
    pending records of the sample log all come back, where a cap of 0
    allows none; a negative limit does the same. *)
Theorem get_pending_changes_limit_zero_sample :
  ∃ cs, get_pending_changes Codec.loads (Some 0) (cdc_rows Sample.source)
          = Ok cs
        ∧ ch_cdc_id <$> cs = [1; 2; 3]
        ∧ get_pending_changes Codec.loads (Some (-1)) (cdc_rows Sample.source)
          = Ok cs.
Proof. vm_compute. eexists. repeat split. Qed.

(** ** The theorems at the sample relation *)

Lemma sample_source_decodable :
  decodable Codec.loads (cdc_rows Sample.source).
Proof. apply (bool_decide_unpack _). vm_compute. exact I. Defined.

(** The pending records of the sample log are its three records, in the
    form of [Sample.insert_change], [update_change], [delete_change]. *)
Lemma sample_pending_changes :
  get_pending_changes Codec.loads (Some 100) (cdc_rows Sample.source)
  = Ok [Sample.insert_change; Sample.update_change; Sample.delete_change].
Proof. vm_compute. reflexivity. Defined.

Lemma get_pending_changes_limit_zero_witness :
  decodable Codec.loads (cdc_rows Sample.source)
  ∧ ∃ cs, get_pending_changes Codec.loads (Some 0) (cdc_rows Sample.source)
            = Ok cs
          ∧ ch_cdc_id <$> cs = pending_ids (cdc_rows Sample.source)
          ∧ length cs = 3%nat.
Proof.
  split; [exact sample_source_decodable|].
  destruct (get_pending_changes_limit_zero Codec.loads
              (cdc_rows Sample.source)) as (_ & _ & Hall).
  destruct (Hall sample_source_decodable) as (cs & Hget & Hids & Hlen & _).
  exists cs. split; [exact Hget|]. split; [exact Hids|].
  rewrite Hlen. vm_compute. reflexivity.
Defined.



Lemma replicate_changes_all_failed_witness :
  ∃ changes,
    get_pending_changes Codec.loads (Some 100)
      (cdc_rows (sys_source Sample.foreign_system)) = Ok changes
    ∧ changes ≠ []
    ∧ Forall (λ c, is_ok (apply_change c
                            (tgt_live (sys_target Sample.foreign_system)))
                   = false) changes
    ∧ replicate_changes Codec.loads 10 100 Sample.foreign_system
      = Ok (0, Sample.foreign_system, []).
Proof.
  exists [Sample.insert_change; Sample.update_change; Sample.delete_change].
  assert (Hget : get_pending_changes Codec.loads (Some 100)
                   (cdc_rows (sys_source Sample.foreign_system))
                 = Ok [Sample.insert_change; Sample.update_change;
                       Sample.delete_change])
    by exact sample_pending_changes.
  assert (Hfail : Forall (λ c, is_ok (apply_change c
                            (tgt_live (sys_target Sample.foreign_system)))
                          = false)
                    [Sample.insert_change; Sample.update_change;
                     Sample.delete_change]).
  { repeat constructor. }
  split; [exact Hget|]. split; [discriminate|]. split; [exact Hfail|].
  apply (replicate_changes_all_failed Codec.loads 10 100
           Sample.foreign_system _ Hget); [discriminate|exact Hfail].
Defined.


Lemma appended_records_are_immutable_witness :
  ∃ r, cdc_rows (sys_source Sample.system0) !! 1 = Some r
       ∧ ∃ r', cdc_rows (sys_source
                 (run_ops Codec.loads Codec.json_object Sample.operations
                    Sample.system0)) !! 1 = Some r'
               ∧ operation r' = operation r
               ∧ record_id r' = record_id r
               ∧ old_data r' = old_data r
               ∧ new_data r' = new_data r
               ∧ changed_at r' = changed_at r.
Proof.
  assert (Hr : ∃ r, cdc_rows (sys_source Sample.system0) !! 1 = Some r).
  { vm_compute. eexists. reflexivity. }
  destruct Hr as [r Hr]. exists r. split; [exact Hr|].
  destruct (appended_records_are_immutable Codec.loads Codec.json_object
              Sample.operations Sample.system0 1 r Hr)
    as (r' & Hr' & Ho & Hi & Hold & Hnew & Hat & _).
  exists r'. split; [exact Hr'|]. split; [exact Ho|]. split; [exact Hi|].
  split; [exact Hold|]. split; [exact Hnew|exact Hat].
Defined.

Lemma apply_change_keyed_by_id_witness :
  (∃ t1, apply_change Sample.insert_change Sample.filled_table = Ok t1
         ∧ apply_change Sample.insert_change t1 = Ok t1
         ∧ filter (λ r', sql_eq (col r' "id") (SInt 1) = true) (t_rows t1)
           = [Sample.mk_row 1 "test1" 100])
  ∧ (∃ t1, apply_change Sample.update_change Sample.filled_table = Ok t1
           ∧ length (t_rows t1) = 2%nat)
  ∧ (∃ t1, apply_change Sample.delete_change Sample.filled_table = Ok t1
           ∧ t_rows t1 = [Sample.mk_row 2 "test2" 50]).
Proof.
  split; [|split].
  - destruct (apply_change_keyed_by_id Sample.insert_change
                Sample.filled_table) as (Hins & _ & _).
    destruct (Hins (Sample.image 1 "test1" 100) (Sample.mk_row 1 "test1" 100)
                1) as (t1 & H1 & _ & H3 & H4).
    + reflexivity.
    + reflexivity.
    + apply (bool_decide_unpack _). vm_compute. exact I.
    + vm_compute. reflexivity.
    + vm_compute. reflexivity.
    + exists t1. split; [exact H1|]. split; [exact H3|exact H4].
  - destruct (apply_change_keyed_by_id Sample.update_change
                Sample.filled_table) as (_ & Hupd & _).
    destruct (Hupd (Sample.image 1 "test1" 200) (JNum 1) (SInt 1))
      as (t1 & H1 & H2 & _).
    + reflexivity.
    + reflexivity.
    + vm_compute. reflexivity.
    + vm_compute. reflexivity.
    + apply (bool_decide_unpack _). vm_compute. exact I.
    + intros Heq. apply (f_equal (λ m : gmap string json, m !! "name")) in Heq.
      vm_compute in Heq. discriminate Heq.
    + apply (bool_decide_unpack _). vm_compute. exact I.
    + left. reflexivity.
    + exists t1. split; [exact H1|exact H2].
  - destruct (apply_change_keyed_by_id Sample.delete_change
                Sample.filled_table) as (_ & _ & Hdel).
    destruct Hdel as (t1 & H1 & H2 & _).
    + reflexivity.
    + apply (bool_decide_unpack _). vm_compute. exact I.
    + exists t1. split; [exact H1|]. rewrite H2. vm_compute. reflexivity.
Defined.

(** * Further properties of the code *)

(** ** Capture *)

Lemma max_key_le (t : cdc_table) b :
  0 ≤ b → (∀ k r, t !! k = Some r → k ≤ b) → max_key t ≤ b.
Proof.
  intros Hb Hall. unfold max_key.
  assert (Hkeys : ∀ k, k ∈ (map_to_list t).*1 → k ≤ b).
  { intros k Hk. apply list_elem_of_fmap in Hk as [[k' r] [-> Hkr]].
    apply elem_of_map_to_list in Hkr. by apply (Hall k' r). }
  induction ((map_to_list t).*1) as [|k ks IH]; simpl; [done|].
  assert (k ≤ b) by (apply Hkeys; by left).
  assert (foldr Z.max 0 ks ≤ b) by (apply IH; intros; apply Hkeys; by right).
  lia.
Qed.

Lemma max_key_nonneg (t : cdc_table) : 0 ≤ max_key t.
Proof.
  unfold max_key. induction ((map_to_list t).*1) as [|k ks IH]; simpl; lia.
Qed.

(** A pending row above every key goes to the end of the scan. *)
Lemma pending_ids_insert_last (t : cdc_table) id r :
  (∀ k r', t !! k = Some r' → k < id) → synced r = 0 →
  pending_ids (<[id := r]> t) = pending_ids t ++ [id].
Proof.
  intros Habove Hs.
  assert (Hfresh : t !! id = None).
  { destruct (t !! id) as [r'|] eqn:Hr'; [|done].
    specialize (Habove id r' Hr'). lia. }
  assert (Hlt : ∀ k, k ∈ pending_ids t → k < id).
  { intros k Hk. apply elem_of_pending_ids in Hk as [r' [Hr' _]].
    by apply (Habove k r'). }
  apply sorted_keys_unique.
  - apply pending_ids_sorted.
  - apply StronglySorted_app_2.
    + intros x1 x2 H1 H2. apply list_elem_of_singleton in H2 as ->.
      specialize (Hlt x1 H1). lia.
    + apply pending_ids_sorted.
    + repeat constructor.
  - apply NoDup_pending_ids.
  - apply NoDup_app. split; [apply NoDup_pending_ids|]. split.
    + intros x Hx Hx'. apply list_elem_of_singleton in Hx' as ->.
      specialize (Hlt id Hx). lia.
    + apply NoDup_singleton.
  - intros k. rewrite elem_of_app, list_elem_of_singleton.
    rewrite !elem_of_pending_ids. split.
    + intros [r' [Hr' Hs']]. destruct (decide (k = id)) as [->|Hne].
      * by right.
      * left. rewrite lookup_insert_ne in Hr' by done. eauto.
    + intros [[r' [Hr' Hs']]| ->].
      * exists r'. split; [|done]. rewrite lookup_insert_ne; [done|].
        intros <-. specialize (Habove id r' Hr'). lia.
      * exists r. by rewrite lookup_insert_eq.
Qed.

Section CaptureProperties.

Variable json_object : list (string * sqlval) → string.

Lemma json_fields_total m ref cs r :
  image m ref = Some r → (∀ c, c ∈ cs → is_Some (r !! c)) →
  ∃ fs, json_fields m ref cs = Ok fs ∧ fs.*1 = cs.
Proof.
  intros Him. induction cs as [|c cs IH]; intros Hall.
  - by exists [].
  - destruct (Hall c) as [v Hv]; [by left|].
    destruct IH as [fs [Hfs Hkeys]]; [intros; apply Hall; by right|].
    exists ((c, v) :: fs). split; [|by rewrite fmap_cons, Hkeys].
    simpl. unfold column_value.
    rewrite Him, Hv. simpl. by rewrite Hfs.
Qed.

Lemma json_column_total m ref (cols : option (list string)) :
  (∀ cs, cols = Some cs →
     ∃ r, image m ref = Some r ∧ ∀ c, c ∈ cs → is_Some (r !! c)) →
  ∃ doc, json_column json_object m ref cols = Ok doc
         ∧ (is_Some doc ↔ is_Some cols).
Proof.
  intros Hcols. destruct cols as [cs|]; simpl.
  - destruct (Hcols cs eq_refl) as [r [Him Hall]].
    destruct (json_fields_total m ref cs r Him Hall) as [fs [Hfs _]].
    rewrite Hfs. simpl. eexists. split; [done|]. by split; eexists.
  - exists None. split; [done|]. split; intros [? ?]; done.
Qed.

(** What a trigger that fired has done to the log. *)
Lemma fire_trigger_effect trg m now s s' :
  fire_trigger json_object trg m now s = Ok s' →
  ∃ r, cdc_rows s' = <[next_cdc_id s := r]> (cdc_rows s)
       ∧ cdc_rows s !! next_cdc_id s = None
       ∧ (∀ k r', cdc_rows s !! k = Some r' → k < next_cdc_id s)
       ∧ cdc_seq s < next_cdc_id s
       ∧ cdc_seq s' = next_cdc_id s
       ∧ next_cdc_id s' = next_cdc_id s + 1
       ∧ operation r = trg_operation trg
       ∧ record_id r ≠ SNull
       ∧ (is_Some (old_data r) ↔ is_Some (trg_old_json trg))
       ∧ (is_Some (new_data r) ↔ is_Some (trg_new_json trg))
       ∧ changed_at r = now ∧ synced r = 0 ∧ sync_timestamp r = None
       ∧ pending_ids (cdc_rows s')
         = pending_ids (cdc_rows s) ++ [next_cdc_id s].
Proof.
  intros Hfire. unfold fire_trigger in Hfire.
  destruct (column_value m _ _) as [|rid]; [done|]. simpl in Hfire.
  destruct (json_column json_object m OLD (trg_old_json trg))
    as [|old] eqn:Hold; [done|]. simpl in Hfire.
  destruct (json_column json_object m NEW (trg_new_json trg))
    as [|new] eqn:Hnew; [done|]. simpl in Hfire.
  case_decide as Hrid; [done|]. injection Hfire as <-.
  assert (Habove : ∀ k r', cdc_rows s !! k = Some r' → k < next_cdc_id s).
  { intros k r' Hr'. apply max_key_ge in Hr'. unfold next_cdc_id. lia. }
  eexists. split; [done|]. split; [apply next_cdc_id_fresh|].
  split; [exact Habove|]. split; [unfold next_cdc_id; lia|].
  split; [done|]. split.
  { unfold next_cdc_id at 1. simpl. f_equal.
    apply Z.max_l. apply max_key_le.
    - pose proof (max_key_nonneg (cdc_rows s)). unfold next_cdc_id. lia.
    - intros k r' Hr'. destruct (decide (k = next_cdc_id s)) as [->|Hne].
      + lia.
      + rewrite lookup_insert_ne in Hr' by done.
        specialize (Habove k r' Hr'). lia. }
  simpl. split; [done|]. split; [done|].
  assert (Hdoc : ∀ ref cols doc,
            json_column json_object m ref cols = Ok doc →
            is_Some doc ↔ is_Some cols).
  { intros ref [cs|] doc; simpl.
    - destruct (json_fields m ref cs); [done|]. simpl.
      intros [= <-]. by split; eexists.
    - intros [= <-]. done. }
  split; [by eapply Hdoc|]. split; [by eapply Hdoc|].
  split; [done|]. split; [done|]. split; [done|].
  by apply pending_ids_insert_last.
Qed.

(** X2: when a capture trigger fires on a row that holds the columns it
    reads, with a [record_id] that is not NULL, it does not raise; and
    when it returns it has appended exactly one record: under the next
    [cdc_id], which is above every id in the log and above every id ever
    given, pending ([synced = 0], no [sync_timestamp]), stamped with the
    time of the call and the trigger's operation; every other record is
    as it was, the new record is the last of the pending scan, and the
    next id is one more. *)
Theorem fire_trigger_appends trg m now s :
  (capturable trg m →
   ∃ s', fire_trigger json_object trg m now s = Ok s')
  ∧ ∀ s', fire_trigger json_object trg m now s = Ok s' →
      ∃ r, cdc_rows s' = <[next_cdc_id s := r]> (cdc_rows s)
           ∧ cdc_rows s !! next_cdc_id s = None
           ∧ (∀ k r', cdc_rows s !! k = Some r' → k < next_cdc_id s)
           ∧ cdc_seq s < next_cdc_id s
           ∧ cdc_seq s' = next_cdc_id s
           ∧ next_cdc_id s' = next_cdc_id s + 1
           ∧ operation r = trg_operation trg
           ∧ record_id r ≠ SNull
           ∧ (is_Some (old_data r) ↔ is_Some (trg_old_json trg))
           ∧ (is_Some (new_data r) ↔ is_Some (trg_new_json trg))
           ∧ changed_at r = now ∧ synced r = 0 ∧ sync_timestamp r = None
           ∧ pending_ids (cdc_rows s')
             = pending_ids (cdc_rows s) ++ [next_cdc_id s].
Proof.
  split.
  - intros ((r & v & Him & Hv & Hnn) & Hold & Hnew).
    destruct (json_column_total m OLD _ Hold) as [old [Ho _]].
    destruct (json_column_total m NEW _ Hnew) as [new [Hn _]].
    unfold fire_trigger, column_value. rewrite Him, Hv. simpl.
    rewrite Ho. simpl. rewrite Hn. simpl.
    rewrite decide_False by done. by eexists.
  - intros s'. apply fire_trigger_effect.
Qed.

(** X3: N source mutations whose triggers all fire leave exactly N more
    records in the log: their ids are the next N consecutive ids, in the
    order of the mutations, each pending and with the operation of its
    trigger; the records that were there keep their rows. *)
Theorem fire_all_appends_in_order (ms : list (Z * trigger * mutation)) s s' :
  fire_all json_object ms s = Ok s' →
  pending_ids (cdc_rows s')
    = pending_ids (cdc_rows s)
      ++ seqZ (next_cdc_id s) (Z.of_nat (length ms))
  ∧ size (cdc_rows s') = (size (cdc_rows s) + length ms)%nat
  ∧ next_cdc_id s' = next_cdc_id s + Z.of_nat (length ms)
  ∧ (∀ (i : nat) now trg m, ms !! i = Some (now, trg, m) →
       ∃ r, cdc_rows s' !! (next_cdc_id s + Z.of_nat i) = Some r
            ∧ operation r = trg_operation trg
            ∧ changed_at r = now ∧ synced r = 0)
  ∧ (∀ k r, cdc_rows s !! k = Some r → cdc_rows s' !! k = Some r).
Proof.
  revert s. induction ms as [|[[now trg] m] ms IH]; intros s Hall.
  - injection Hall as <-. simpl. rewrite app_nil_r, Z.add_0_r, Nat.add_0_r.
    split; [done|]. split; [done|]. split; [done|]. split; [|done].
    intros i ? ? ? Hi. by rewrite lookup_nil in Hi.
  - simpl in Hall.
    destruct (fire_trigger json_object trg m now s) as [|s1] eqn:Hfire;
      [done|]. simpl in Hall.
    destruct (fire_trigger_effect trg m now s s1 Hfire)
      as (r & Hrows & Hfresh & Habove & _ & _ & Hnext & Hop & _ & _ & _
          & Hat & Hs & _ & Hpend).
    destruct (IH s1 Hall) as (IHp & IHsize & IHnext & IHrec & IHkeep).
    rewrite Hnext in IHp, IHnext, IHrec.
    split; [|split; [|split; [|split]]].
    + rewrite IHp, Hpend, <- app_assoc. f_equal.
      simpl length. rewrite (seqZ_cons _ (Z.of_nat (S (length ms)))) by lia.
      simpl. do 2 f_equal. lia.
    + rewrite IHsize, Hrows, map_size_insert_None by done. simpl. lia.
    + rewrite IHnext. simpl length. lia.
    + intros [|i] now' trg' m' Hi.
      * injection Hi as -> -> ->. exists r.
        rewrite Z.add_0_r. split; [|done].
        apply IHkeep. rewrite Hrows. apply lookup_insert_eq.
      * destruct (IHrec i now' trg' m' Hi) as (r' & Hr' & Hrest).
        exists r'. split; [|exact Hrest].
        replace (next_cdc_id s + Z.of_nat (S i))
          with (next_cdc_id s + 1 + Z.of_nat i) by lia.
        exact Hr'.
    + intros k r' Hr'. apply IHkeep. rewrite Hrows.
      rewrite lookup_insert_ne; [done|]. intros <-. congruence.
Qed.

End CaptureProperties.

(** ** Setup *)

Lemma length_string_app (a b : string) :
  String.length (a +:+ b) = (String.length a + String.length b)%nat.
Proof. induction a as [|c a IH]; simpl; [done|]. by rewrite IH. Qed.

Lemma index_name_not_table_name table_name :
  "idx_" +:+ cdc_table_name table_name +:+ "_synced"
  ≠ cdc_table_name table_name.
Proof.
  intros Heq. apply (f_equal String.length) in Heq.
  rewrite !length_string_app in Heq. simpl in Heq. lia.
Qed.

Lemma trigger_names_distinct table_name :
  table_name +:+ "_insert_trigger" ≠ table_name +:+ "_update_trigger"
  ∧ table_name +:+ "_insert_trigger" ≠ table_name +:+ "_delete_trigger"
  ∧ table_name +:+ "_update_trigger" ≠ table_name +:+ "_delete_trigger".
Proof.
  repeat split; intros Heq; apply String.app_inj in Heq; discriminate Heq.
Qed.

Lemma run_script_keeps_installed s script c c1 r :
  installed s c → run (run_script script) c = (c1, r) → installed s c1.
Proof.
  revert c. induction script as [|[e|s'] rest IH]; intros c Hs Hrun.
  - by injection Hrun as <- _.
  - by injection Hrun as <- _.
  - rewrite run_script_cons_ok in Hrun.
    destruct (execute_ddl s' c) as [e|c'] eqn:Hx.
    + by injection Hrun as <- _.
    + apply (IH c'); [|done]. by apply (installed_mono s s' c c').
Qed.

(** A script that ran to its end left every statement installed. *)
Lemma run_script_ok_installed script c c1 :
  run (run_script script) c = (c1, Ok ()) →
  ∃ stmts, script = Ok <$> stmts ∧ Forall (λ s, installed s c1) stmts.
Proof.
  revert c. induction script as [|[e|s] rest IH]; intros c Hrun.
  - exists []. split; [done|constructor].
  - discriminate Hrun.
  - rewrite run_script_cons_ok in Hrun.
    destruct (execute_ddl s c) as [e|c'] eqn:Hx; [discriminate Hrun|].
    destruct (IH c' Hrun) as (stmts & -> & Hall).
    exists (s :: stmts). split; [done|]. constructor; [|done].
    apply (run_script_keeps_installed s (Ok <$> stmts) c' c1 (Ok ()));
      [|done].
    by apply (execute_ddl_installs s c c').
Qed.

Lemma execute_create_table_fresh name cols c :
  cat_tables c !! name = None → cat_indexes c !! name = None →
  execute_ddl (CreateTable name cols) c
  = Ok {| cat_tables := <[name := cols]> (cat_tables c);
          cat_indexes := cat_indexes c;
          cat_triggers := cat_triggers c |}.
Proof.
  intros Ht Hi. simpl.
  rewrite decide_False by (rewrite Ht; by intros [? ?]).
  by rewrite decide_False by (rewrite Hi; by intros [? ?]).
Qed.

Lemma execute_create_index_fresh name on cols tcols c :
  cat_tables c !! on = Some tcols → cat_tables c !! name = None →
  cat_indexes c !! name = None → cols ⊆ tcols →
  execute_ddl (CreateIndex name on cols) c
  = Ok {| cat_tables := cat_tables c;
          cat_indexes := <[name := (on, cols)]> (cat_indexes c);
          cat_triggers := cat_triggers c |}.
Proof.
  intros Hon Ht Hi Hsub. simpl. rewrite Hon.
  rewrite decide_False by (rewrite Ht; by intros [? ?]).
  rewrite decide_False by (rewrite Hi; by intros [? ?]).
  by rewrite decide_True.
Qed.

Lemma execute_create_trigger_fresh name body c :
  is_Some (cat_tables c !! trg_on body) → cat_triggers c !! name = None →
  execute_ddl (CreateTrigger name body) c
  = Ok {| cat_tables := cat_tables c;
          cat_indexes := cat_indexes c;
          cat_triggers := <[name := body]> (cat_triggers c) |}.
Proof.
  intros [tcols Ht] Hn. simpl. rewrite Ht.
  by rewrite decide_False by (rewrite Hn; by intros [? ?]).
Qed.

Lemma no_name_like_lookup {A} (m : gmap string A) n :
  no_name_like m n → m !! n = None.
Proof.
  intros Hall. destruct (m !! n) as [x|] eqn:Hn; [|done].
  by destruct (Hall n x Hn).
Qed.

(** X4: for a table name and columns that are plain identifiers, in a
    database that has the relation and no object named, in any letter
    case, like one of the five names the setup uses,
    [setup_trigger_based_cdc] returns and adds exactly the log table
    with its eight columns, the index on (synced, cdc_id) and the three
    triggers, whose [record_id] is the first column given and whose
    documents list all the columns; no other object of the catalogue
    changes. *)
Theorem setup_trigger_based_cdc_creates table_name c0 columns c :
  plain_names table_name (c0 :: columns) →
  is_Some (cat_tables c !! table_name) →
  no_name_like (cat_tables c) (cdc_table_name table_name) →
  no_name_like (cat_indexes c) (cdc_table_name table_name) →
  no_name_like (cat_tables c)
    ("idx_" +:+ cdc_table_name table_name +:+ "_synced") →
  no_name_like (cat_indexes c)
    ("idx_" +:+ cdc_table_name table_name +:+ "_synced") →
  no_name_like (cat_triggers c) (table_name +:+ "_insert_trigger") →
  no_name_like (cat_triggers c) (table_name +:+ "_update_trigger") →
  no_name_like (cat_triggers c) (table_name +:+ "_delete_trigger") →
  run (setup_trigger_based_cdc table_name (c0 :: columns)) c
  = ({| cat_tables :=
          <[cdc_table_name table_name := cdc_columns]> (cat_tables c);
        cat_indexes :=
          <["idx_" +:+ cdc_table_name table_name +:+ "_synced" :=
              (cdc_table_name table_name, ["synced"; "cdc_id"])]>
            (cat_indexes c);
        cat_triggers :=
          <[table_name +:+ "_delete_trigger" :=
              {| trg_event := AfterDelete; trg_on := table_name;
                 trg_into := cdc_table_name table_name;
                 trg_operation := "DELETE"; trg_record_id := (OLD, c0);
                 trg_old_json := Some (c0 :: columns);
                 trg_new_json := None |}]>
            (<[table_name +:+ "_update_trigger" :=
                 {| trg_event := AfterUpdate; trg_on := table_name;
                    trg_into := cdc_table_name table_name;
                    trg_operation := "UPDATE"; trg_record_id := (NEW, c0);
                    trg_old_json := Some (c0 :: columns);
                    trg_new_json := Some (c0 :: columns) |}]>
               (<[table_name +:+ "_insert_trigger" :=
                    {| trg_event := AfterInsert; trg_on := table_name;
                       trg_into := cdc_table_name table_name;
                       trg_operation := "INSERT";
                       trg_record_id := (NEW, c0);
                       trg_old_json := None;
                       trg_new_json := Some (c0 :: columns) |}]>
                  (cat_triggers c))) |}, Ok ()).
Proof.
  intros _ Hrel Ht%no_name_like_lookup Hi%no_name_like_lookup
    Hit%no_name_like_lookup Hii%no_name_like_lookup
    Hins%no_name_like_lookup Hupd%no_name_like_lookup
    Hdel%no_name_like_lookup.
  destruct (trigger_names_distinct table_name) as (Hiu & Hid & Hud).
  rewrite setup_as_script. unfold setup_script, trigger_statement.
  rewrite run_script_cons_ok, execute_create_table_fresh by done.
  assert (Hrel' : is_Some (<[cdc_table_name table_name := cdc_columns]>
                             (cat_tables c) !! table_name)).
  { apply lookup_insert_is_Some.
    destruct (decide (cdc_table_name table_name = table_name));
      [by left|by right]. }
  rewrite run_script_cons_ok.
  rewrite (execute_create_index_fresh _ _ _ cdc_columns);
    [|apply lookup_insert_eq
     |simpl; rewrite lookup_insert_ne;
        [done|intros Heq; by apply (index_name_not_table_name table_name)]
     |done
     |intros x Hx; unfold cdc_columns; set_solver].
  rewrite run_script_cons_ok, execute_create_trigger_fresh by done.
  rewrite run_script_cons_ok, execute_create_trigger_fresh;
    [|done|simpl; by rewrite lookup_insert_ne].
  rewrite run_script_cons_ok, execute_create_trigger_fresh;
    [|done|simpl; by rewrite !lookup_insert_ne].
  done.
Qed.

(** X5: once a relation is set up, a later setup of the same relation
    with other columns, plain identifiers again, returns without
    changing anything: the triggers keep the first column list
    ([IF NOT EXISTS] sees their names). *)
Theorem setup_trigger_based_cdc_keeps_first table_name columns1 columns2
    c c1 :
  plain_names table_name columns2 →
  columns2 ≠ [] →
  run (setup_trigger_based_cdc table_name columns1) c = (c1, Ok ()) →
  run (setup_trigger_based_cdc table_name columns2) c1 = (c1, Ok ()).
Proof.
  intros _ Hne Hrun. rewrite setup_as_script in *.
  destruct (run_script_ok_installed _ _ _ Hrun) as (stmts & Hscript & Hall).
  destruct columns2 as [|a2 cols2]; [done|].
  unfold setup_script in Hscript.
  destruct stmts as [|s1 [|s2 [|s3 [|s4 [|s5 [|s6 stmts]]]]]];
    try discriminate Hscript.
  injection Hscript as <- <- Hs3 Hs4 Hs5.
  destruct columns1 as [|a1 cols1]; [discriminate Hs3|].
  unfold trigger_statement in Hs3, Hs4, Hs5.
  injection Hs3 as <-. injection Hs4 as <-. injection Hs5 as <-.
  apply Forall_cons in Hall as [H1 Hall].
  apply Forall_cons in Hall as [H2 Hall].
  apply Forall_cons in Hall as [H3 Hall].
  apply Forall_cons in Hall as [H4 Hall].
  apply Forall_cons in Hall as [H5 _].
  unfold setup_script, trigger_statement.
  rewrite run_script_cons_ok, (installed_noop _ _ H1).
  rewrite run_script_cons_ok, (installed_noop _ _ H2).
  rewrite run_script_cons_ok, installed_noop by exact H3.
  rewrite run_script_cons_ok, installed_noop by exact H4.
  rewrite run_script_cons_ok, installed_noop by exact H5.
  done.
Qed.


(** ** Statistics and the health report *)

Lemma count_rows_mono (P Q : cdc_row → Prop)
    `{∀ r, Decision (P r)} `{∀ r, Decision (Q r)} rows :
  (∀ r, r ∈ rows → P r → Q r) → count_rows P rows ≤ count_rows Q rows.
Proof.
  induction rows as [|r rows IH]; intros Himp; [done|].
  rewrite !count_rows_cons.
  assert (count_rows P rows ≤ count_rows Q rows)
    by (apply IH; intros; apply Himp; [by right|done]).
  assert (P r → Q r) by (apply Himp; by left).
  repeat case_decide; tauto || lia.
Qed.

Lemma count_rows_split (P Q R : cdc_row → Prop)
    `{∀ r, Decision (P r)} `{∀ r, Decision (Q r)} `{∀ r, Decision (R r)}
    rows :
  (∀ r, r ∈ rows → P r ↔ Q r ∨ R r) → (∀ r, r ∈ rows → ¬ (Q r ∧ R r)) →
  count_rows P rows = count_rows Q rows + count_rows R rows.
Proof.
  intros Hiff Hdisj. unfold count_rows.
  rewrite (filter_length_split P Q R) by done. lia.
Qed.

Lemma count_rows_all rows : count_rows (λ _, True) rows = Z.of_nat (length rows).
Proof. unfold count_rows. by rewrite filter_all_in. Qed.

Lemma length_rows_of (t : cdc_table) : length (rows_of t) = size t.
Proof. unfold rows_of. by rewrite length_fmap, length_map_to_list. Qed.

Lemma elem_of_rows_of (t : cdc_table) r :
  r ∈ rows_of t ↔ ∃ id, t !! id = Some r.
Proof.
  unfold rows_of. rewrite list_elem_of_fmap. split.
  - intros [[id r'] [-> Hin]]. exists id. by apply elem_of_map_to_list.
  - intros [id Hid]. exists (id, r). split; [done|].
    by apply elem_of_map_to_list.
Qed.

(** X7: [get_change_statistics] has an entry for exactly the operations
    that occur in the log; its [total] is the number of records of that
    operation, at least 1; [pending] and [synced] count the records of the
    operation with [synced = 0] and [synced = 1], so together they never
    exceed [total] and reach it when every flag of the group is 0 or 1;
    and the totals of all entries add up to the number of records. *)
Theorem get_change_statistics_groups (t : cdc_table) op :
  (is_Some (get_change_statistics t !! op)
   ↔ ∃ id r, t !! id = Some r ∧ operation r = op)
  ∧ (∀ e, get_change_statistics t !! op = Some e →
       st_total e = count_rows (λ r, operation r = op) (rows_of t)
       ∧ st_pending e
         = count_rows (λ r, operation r = op ∧ synced r = 0) (rows_of t)
       ∧ st_synced e
         = count_rows (λ r, operation r = op ∧ synced r = 1) (rows_of t)
       ∧ 1 ≤ st_total e
       ∧ 0 ≤ st_pending e ∧ 0 ≤ st_synced e
       ∧ st_pending e + st_synced e ≤ st_total e
       ∧ ((∀ id r, t !! id = Some r → operation r = op →
             synced r = 0 ∨ synced r = 1) →
          st_pending e + st_synced e = st_total e))
  ∧ sum_values st_total (get_change_statistics t) = Z.of_nat (size t).
Proof.
  assert (Hocc : op ∈ operation <$> rows_of t
                 ↔ ∃ id r, t !! id = Some r ∧ operation r = op).
  { rewrite list_elem_of_fmap. split.
    - intros [r [-> Hr]]. apply elem_of_rows_of in Hr as [id Hid].
      by exists id, r.
    - intros (id & r & Hr & <-). exists r. split; [done|].
      apply elem_of_rows_of. by exists id. }
  split; [|split].
  - rewrite lookup_get_change_statistics. case_decide as Hin.
    + split; [intros _; by apply Hocc|by eexists].
    + split; [by intros [? ?]|]. intros Hex. by apply Hocc in Hex.
  - intros e. rewrite lookup_get_change_statistics.
    case_decide as Hin; [|done]. intros [= <-]. simpl.
    split; [done|]. split; [done|]. split; [done|].
    assert (Hsplit : count_rows
              (λ r, operation r = op ∧ (synced r = 0 ∨ synced r = 1))
              (rows_of t)
            = count_rows (λ r, operation r = op ∧ synced r = 0) (rows_of t)
              + count_rows (λ r, operation r = op ∧ synced r = 1)
                  (rows_of t)).
    { apply count_rows_split; intros r _; [tauto|]. intros [[_ ?] [_ ?]]. lia. }
    split.
    { destruct (decide (count_rows (λ r, operation r = op) (rows_of t) = 0))
        as [Hz|Hnz].
      - apply count_rows_zero in Hz. rewrite Forall_forall in Hz.
        apply list_elem_of_fmap in Hin as [r [-> Hr]]. by destruct (Hz r Hr).
      - pose proof (count_rows_nonneg (λ r, operation r = op) (rows_of t)).
        lia. }
    split; [apply count_rows_nonneg|]. split; [apply count_rows_nonneg|].
    split.
    + rewrite <- Hsplit. apply count_rows_mono. tauto.
    + intros Hflags. rewrite <- Hsplit. apply count_rows_ext.
      apply Forall_forall. intros r Hr.
      apply elem_of_rows_of in Hr as [id Hid]. split; [tauto|].
      intros Hop. split; [done|]. by apply (Hflags id r).
  - rewrite (sum_values_get_change_statistics (λ _, True)).
    + by rewrite count_rows_all, length_rows_of.
    + intros op' rows. simpl. apply count_rows_ext.
      apply Forall_forall. intros r _. tauto.
Qed.

(** X8: in the health report, [pending_changes] and [synced_changes] are
    the numbers of records with [synced = 0] and [synced = 1],
    [total_changes] is their sum, which is at most the number of records
    and equal to it when every flag is 0 or 1; [by_operation] is the
    statistics, and the table name and the time are those given. *)
Theorem get_health_report_totals now table_name (t : cdc_table) :
  pending_changes (get_health_report now table_name t)
    = count_rows (λ r, synced r = 0) (rows_of t)
  ∧ synced_changes (get_health_report now table_name t)
    = count_rows (λ r, synced r = 1) (rows_of t)
  ∧ total_changes (get_health_report now table_name t)
    = pending_changes (get_health_report now table_name t)
      + synced_changes (get_health_report now table_name t)
  ∧ total_changes (get_health_report now table_name t) ≤ Z.of_nat (size t)
  ∧ ((∀ id r, t !! id = Some r → synced r = 0 ∨ synced r = 1) →
     total_changes (get_health_report now table_name t) = Z.of_nat (size t))
  ∧ by_operation (get_health_report now table_name t)
    = get_change_statistics t
  ∧ rep_table (get_health_report now table_name t) = table_name
  ∧ rep_timestamp (get_health_report now table_name t) = now.
Proof.
  assert (Hsplit : count_rows (λ r, synced r = 0 ∨ synced r = 1) (rows_of t)
                   = count_rows (λ r, synced r = 0) (rows_of t)
                     + count_rows (λ r, synced r = 1) (rows_of t)).
  { apply count_rows_split; intros r _; [tauto|]. intros [? ?]. lia. }
  unfold get_health_report. simpl. rewrite sum_pending, sum_synced.
  split; [done|]. split; [done|]. split; [done|]. split; [|split].
  - rewrite <- Hsplit, <- length_rows_of, <- count_rows_all.
    by apply count_rows_mono.
  - intros Hflags.
    rewrite <- Hsplit, <- length_rows_of, <- count_rows_all.
    apply count_rows_ext. apply Forall_forall. intros r Hr.
    apply elem_of_rows_of in Hr as [id Hid]. split; [done|].
    intros _. by apply (Hflags id r).
  - done.
Qed.

(** ** Reading and replicating *)



Section ReadingProperties.

Variable json_loads : string → option json.






End ReadingProperties.

(** ** The apply operations at their edges *)

Lemma with_rows_same t : with_rows t (t_rows t) = t.
Proof. by destruct t. Qed.

Lemma update_rows_idempotent (a : row) v (rows : list row) :
  a !! "id" = None →
  (λ r, if sql_eq (col r "id") v then a ∪ r else r)
    <$> ((λ r, if sql_eq (col r "id") v then a ∪ r else r) <$> rows)
  = (λ r, if sql_eq (col r "id") v then a ∪ r else r) <$> rows.
Proof.
  intros Hid. rewrite <- list_fmap_compose. apply list_fmap_ext.
  intros i r _. simpl.
  destruct (sql_eq (col r "id") v) eqn:Heq; [|by rewrite Heq].
  rewrite col_union, Hid, Heq.
  by rewrite (assoc_L (∪)), (idemp_L (∪)).
Qed.

(** X12: a record whose operation is none of INSERT, UPDATE and DELETE
    (the comparison is exact, so lower case counts as none) raises
    nothing and leaves the target as it is; the loop still appends its id
    to the ids it reports and marks as synced. *)
Theorem unknown_operation_is_counted c t rest acc :
  ch_operation c ≠ "INSERT" → ch_operation c ≠ "UPDATE" →
  ch_operation c ≠ "DELETE" →
  apply_change c t = Ok t
  ∧ replicate_loop (c :: rest) t acc
    = replicate_loop rest t (acc ++ [ch_cdc_id c]).
Proof.
  intros Hi Hu Hd.
  assert (Happ : apply_change c t = Ok t).
  { unfold apply_change. by rewrite !decide_False. }
  split; [done|]. simpl. by rewrite Happ.
Qed.

(** X13: UPDATE and DELETE records are idempotent on the target: when
    applying one succeeded, applying it again to the table it left
    succeeds and leaves that table.  And a record that matches no row
    changes nothing: when an UPDATE or DELETE whose key ([where_id]) is
    the [id] of no target row returns, the table is as it was (an UPDATE
    does not insert). *)
Theorem update_and_delete_are_idempotent c t t1 :
  ch_operation c = "UPDATE" ∨ ch_operation c = "DELETE" →
  apply_change c t = Ok t1 →
  apply_change c t1 = Ok t1
  ∧ t_columns t1 = t_columns t ∧ t_pk t1 = t_pk t
  ∧ (length (t_rows t1) ≤ length (t_rows t))%nat
  ∧ ((∀ r v, r ∈ t_rows t → where_id c = Some v →
             sql_eq (col r "id") v = false) →
     t1 = t).
Proof.
  intros [Hop|Hop] Happ.
  - unfold apply_change, _apply_update in *.
    rewrite decide_False in * by (rewrite Hop; done).
    rewrite decide_True in * by done.
    destruct (ch_new_data c) as [| | | | |m] eqn:Hdata;
      try discriminate Happ.
    simpl in *. destruct (m !! "id") as [j|] eqn:Hj; [|discriminate Happ].
    simpl in *.
    case_decide as Hne; [discriminate Happ|].
    case_decide as Hknown; [|discriminate Happ].
    destruct (bind_params (delete "id" m)) as [e|a] eqn:Ha;
      [discriminate Happ|]. simpl in *.
    destruct (bind_param j) as [v|] eqn:Hv; [|discriminate Happ].
    assert (Haid : a !! "id" = None).
    { rewrite (bind_params_lookup _ _ "id" Ha). by rewrite lookup_delete_eq. }
    case_decide as Hkeys; [discriminate Happ|].
    injection Happ as <-. simpl.
    rewrite update_rows_idempotent by done.
    rewrite decide_True by exact Hknown.
    rewrite decide_False by exact Hkeys.
    split; [by destruct t|]. split; [done|]. split; [done|].
    split; [by rewrite length_fmap|].
    intros Hnomatch.
    transitivity (with_rows t (t_rows t)); [|apply with_rows_same]. f_equal.
    transitivity (id <$> t_rows t); [|apply list_fmap_id].
    apply list_fmap_ext. intros i r Hr. simpl.
    assert (Hin : r ∈ t_rows t) by (by eapply list_elem_of_lookup_2).
    rewrite (Hnomatch r v Hin); [done|].
    unfold where_id. rewrite decide_False by (rewrite Hop; done).
    rewrite Hdata. by rewrite Hj.
  - unfold apply_change, _apply_delete in *.
    rewrite !decide_False in * by (rewrite Hop; done).
    rewrite decide_True in * by done. simpl in *.
    case_decide as Hid; [|discriminate Happ].
    injection Happ as <-. simpl. rewrite decide_True by done.
    split.
    { do 2 f_equal. apply filter_all_in. intros r Hr.
      by apply list_elem_of_filter in Hr as [? _]. }
    split; [done|]. split; [done|].
    split; [apply length_filter|].
    intros Hnomatch.
    transitivity (with_rows t (t_rows t)); [|apply with_rows_same]. f_equal.
    apply filter_all_in. intros r Hr.
    apply (Hnomatch r _ Hr). unfold where_id. by rewrite decide_True.
Qed.

Lemma no_such_column_unknown t k : no_such_column t k → k ∉ t_columns t.
Proof.
  intros [Hnot _] Hin. apply Hnot. apply list_elem_of_fmap. by exists k.
Qed.

(** X14: how a record fails to apply.  An INSERT or UPDATE whose
    [new_data] is not a dictionary (NULL in the log, for one) raises
    [AttributeError]; an UPDATE whose dictionary has no ['id'] raises
    [KeyError]; an UPDATE whose dictionary has nothing but ['id'], and an
    INSERT with the empty dictionary, send a statement SQLite rejects; so
    does a DELETE or UPDATE on a target where SQLite finds no column
    [id], and an INSERT or UPDATE whose keys are plain identifiers, one
    of which SQLite finds no column for (in any letter case, and no name
    of the rowid). *)
Theorem apply_change_raises c t :
  ((ch_operation c = "INSERT" ∨ ch_operation c = "UPDATE") →
   (∀ m, ch_new_data c ≠ JObj m) → apply_change c t = Raise AttributeError)
  ∧ (∀ m, ch_operation c = "UPDATE" → ch_new_data c = JObj m →
          m !! "id" = None → apply_change c t = Raise KeyError)
  ∧ (∀ m j, ch_operation c = "UPDATE" → ch_new_data c = JObj m →
            m !! "id" = Some j → delete "id" m = ∅ →
            apply_change c t = Raise DatabaseError)
  ∧ (ch_operation c = "INSERT" → ch_new_data c = JObj ∅ →
     apply_change c t = Raise DatabaseError)
  ∧ (∀ m k, ch_operation c = "INSERT" → ch_new_data c = JObj m →
            map_Forall (λ k' _, plain_identifier k' = true) m →
            is_Some (m !! k) → no_such_column t k →
            apply_change c t = Raise DatabaseError)
  ∧ (∀ m j k, ch_operation c = "UPDATE" → ch_new_data c = JObj m →
              map_Forall (λ k' _, plain_identifier k' = true) m →
              m !! "id" = Some j → is_Some (m !! k) →
              no_such_column t k →
              apply_change c t = Raise DatabaseError)
  ∧ (ch_operation c = "DELETE" → no_such_column t "id" →
     apply_change c t = Raise DatabaseError).
Proof.
  unfold apply_change, _apply_insert, _apply_update, _apply_delete.
  split; [|split; [|split; [|split; [|split; [|split]]]]].
  - intros [Hop|Hop] Hnd.
    + rewrite decide_True by done.
      destruct (ch_new_data c) as [| | | | |m]; try done. by destruct (Hnd m).
    + rewrite decide_False by (rewrite Hop; done).
      rewrite decide_True by done.
      destruct (ch_new_data c) as [| | | | |m]; try done. by destruct (Hnd m).
  - intros m Hop Hdata Hid. rewrite decide_False by (rewrite Hop; done).
    rewrite decide_True by done. rewrite Hdata. simpl. by rewrite Hid.
  - intros m j Hop Hdata Hid Hempty.
    rewrite decide_False by (rewrite Hop; done).
    rewrite decide_True by done. rewrite Hdata. simpl. rewrite Hid. simpl.
    by rewrite decide_True.
  - intros Hop Hdata. rewrite decide_True by done. rewrite Hdata. simpl.
    by rewrite decide_True.
  - intros m k Hop Hdata _ Hk Hnk%no_such_column_unknown.
    rewrite decide_True by done.
    rewrite Hdata. simpl. case_decide; [done|].
    rewrite decide_False; [done|].
    intros Hknown. apply Hnk, Hknown. by apply elem_of_dom.
  - intros m j k Hop Hdata _ Hid Hk Hnk%no_such_column_unknown.
    rewrite decide_False by (rewrite Hop; done).
    rewrite decide_True by done. rewrite Hdata. simpl. rewrite Hid. simpl.
    case_decide; [done|]. rewrite decide_False; [done|].
    intros [Hknown Hidcol]. apply Hnk.
    destruct (decide (k = "id")) as [->|Hne]; [done|].
    apply Hknown. apply elem_of_dom. by rewrite lookup_delete_ne.
  - intros Hop Hid%no_such_column_unknown.
    rewrite !decide_False by (rewrite Hop; done).
    rewrite decide_True by done. simpl. by rewrite decide_False.
Qed.

Lemma foldr_max_base a b (ks : list Z) :
  foldr Z.max (Z.max a b) ks = Z.max a (foldr Z.max b ks).
Proof. induction ks as [|k ks IH]; simpl; [done|]. rewrite IH. lia. Qed.

Lemma rowids_snoc t k (r : row) :
  col r (t_pk t) = SInt k →
  rowids (with_rows t (t_rows t ++ [r])) = rowids t ++ [k].
Proof.
  intros Hk. unfold rowids. simpl. rewrite omap_app. simpl. by rewrite Hk.
Qed.

Lemma max_rowid_snoc t k (r : row) :
  col r (t_pk t) = SInt k → max_rowid t < k →
  max_rowid (with_rows t (t_rows t ++ [r])) = k.
Proof.
  intros Hk Hlt. unfold max_rowid in *. rewrite (rowids_snoc t k r Hk).
  destruct (rowids t) as [|k0 ks]; [done|]. simpl.
  rewrite foldr_app. simpl. rewrite foldr_max_base. lia.
Qed.

(** X15: an INSERT record whose new_image has no value for the target's
    primary key is not idempotent: SQLite gives the row one more than
    the largest key in use each time (1 in an empty table), so every
    application appends one more row; two applications leave two rows
    that differ in the key only.  The keys are taken to stay below the
    largest 64-bit integer. *)
Theorem insert_without_key_appends c t (m : gmap string json) (r : row) :
  ch_operation c = "INSERT" → ch_new_data c = JObj m → m ≠ ∅ →
  known_columns t (dom m) → bind_params m = Ok r →
  col r (t_pk t) = SNull →
  max_rowid t + 2 < 2 ^ 63 →
  ∃ t1 t2,
    apply_change c t = Ok t1
    ∧ apply_change c t1 = Ok t2
    ∧ t_rows t1 = t_rows t ++ [<[t_pk t := SInt (max_rowid t + 1)]> r]
    ∧ t_rows t2
      = t_rows t ++ [<[t_pk t := SInt (max_rowid t + 1)]> r;
                     <[t_pk t := SInt (max_rowid t + 2)]> r].
Proof.
  intros Hop Hdata Hne Hknown Hbind Hnull _.
  assert (Hins : ∀ t0, t_columns t0 = t_columns t → t_pk t0 = t_pk t →
            apply_change c t0
            = Ok (with_rows t0
                    (t_rows t0
                     ++ [<[t_pk t := SInt (max_rowid t0 + 1)]> r]))).
  { intros t0 Hcols Hpk. unfold apply_change, _apply_insert.
    rewrite decide_True by done. rewrite Hdata. simpl.
    rewrite decide_False by done. rewrite decide_True.
    - rewrite Hbind. simpl. by rewrite Hpk, Hnull.
    - intros k Hk. rewrite Hcols. by apply Hknown. }
  eexists _, _. split; [by apply Hins|].
  split; [by apply Hins|]. split; [done|]. simpl.
  rewrite (max_rowid_snoc t (max_rowid t + 1)).
  - rewrite <- app_assoc. simpl.
    by replace (max_rowid t + 1 + 1) with (max_rowid t + 2) by lia.
  - unfold col. by rewrite lookup_insert_eq.
  - lia.
Qed.

(** ** Marking in several calls *)

Lemma mark_as_synced_app now ids1 ids2 (t : cdc_table) :
  mark_as_synced now ids2 (mark_as_synced now ids1 t)
  = mark_as_synced now (ids1 ++ ids2) t.
Proof.
  apply map_eq. intros id. rewrite !lookup_mark_as_synced.
  destruct (t !! id) as [r|]; [|done]. simpl. f_equal.
  destruct (decide (id ∈ ids1)) as [H1|H1],
           (decide (id ∈ ids2)) as [H2|H2];
    (destruct (decide (id ∈ ids1 ++ ids2)) as [H3|H3];
     [|exfalso; apply H3; apply elem_of_app; tauto]) || idtac;
    try done.
  destruct (decide (id ∈ ids1 ++ ids2)) as [H3|H3]; [|done].
  apply elem_of_app in H3. tauto.
Qed.

Lemma mark_as_synced_members now ids1 ids2 (t : cdc_table) :
  (∀ id, id ∈ ids1 ↔ id ∈ ids2) →
  mark_as_synced now ids1 t = mark_as_synced now ids2 t.
Proof.
  intros Hsame. apply map_eq. intros id. rewrite !lookup_mark_as_synced.
  destruct (t !! id) as [r|]; [|done]. simpl. f_equal.
  destruct (decide (id ∈ ids1)) as [H1|H1],
           (decide (id ∈ ids2)) as [H2|H2]; try done.
  - by apply Hsame in H1.
  - by apply Hsame in H2.
Qed.

(** X16: [mark_as_synced] in several calls.  When the call on a
    concatenated list returns, so do the call on the first part and then
    the call on the second, and at one clock reading they leave the same
    log; the other way round the two calls compose to the one when the
    concatenated list is not too long for one statement.  Two lists
    with the same members (in any order, with repetitions) whose calls
    both return leave the same log.  And when the first call returns
    and the second raises, the call on the concatenated list raises too:
    it marks nothing, where the two calls leave the first part
    marked. *)
Theorem mark_as_synced_composes max_vars now ids1 ids2 (t : cdc_table) :
  (∀ t', mark_as_synced_call max_vars now (ids1 ++ ids2) t = Ok t' →
     ∃ t1, mark_as_synced_call max_vars now ids1 t = Ok t1
           ∧ mark_as_synced_call max_vars now ids2 t1 = Ok t')
  ∧ (∀ t1 t2, mark_as_synced_call max_vars now ids1 t = Ok t1 →
       mark_as_synced_call max_vars now ids2 t1 = Ok t2 →
       Z.of_nat (length (ids1 ++ ids2)) ≤ max_vars →
       mark_as_synced_call max_vars now (ids1 ++ ids2) t = Ok t2)
  ∧ (∀ t1 t2, (∀ id, id ∈ ids1 ↔ id ∈ ids2) →
       mark_as_synced_call max_vars now ids1 t = Ok t1 →
       mark_as_synced_call max_vars now ids2 t = Ok t2 →
       t1 = t2)
  ∧ (∀ t1 e, mark_as_synced_call max_vars now ids1 t = Ok t1 →
       mark_as_synced_call max_vars now ids2 t1 = Raise e →
       ∃ e', mark_as_synced_call max_vars now (ids1 ++ ids2) t = Raise e').
Proof.
  split; [|split; [|split]].
  - intros t' Hcall.
    apply mark_as_synced_call_ok in Hcall as [-> Hbind].
    assert (Hparts : (ids1 = [] ∨ bindable max_vars ids1)
                     ∧ (ids2 = [] ∨ bindable max_vars ids2)).
    { destruct Hbind as [Hnil|[Hlen Hall]].
      - apply app_eq_nil in Hnil as [-> ->]. by split; left.
      - rewrite length_app in Hlen. apply Forall_app in Hall as [Ha1 Ha2].
        split; right; (split; [lia|done]). }
    destruct Hparts as [Hb1 Hb2].
    exists (mark_as_synced now ids1 t). split.
    + destruct Hb1 as [->|Hb1];
        [done|by apply mark_as_synced_call_bindable].
    + rewrite <- mark_as_synced_app.
      destruct Hb2 as [->|Hb2];
        [done|by apply mark_as_synced_call_bindable].
  - intros t1 t2 H1 H2 Hlen.
    apply mark_as_synced_call_ok in H1 as [-> Hb1].
    apply mark_as_synced_call_ok in H2 as [-> Hb2].
    rewrite mark_as_synced_app.
    apply mark_as_synced_call_bindable. split; [done|].
    apply Forall_app. split.
    + destruct Hb1 as [->|[_ Ha]]; [constructor|done].
    + destruct Hb2 as [->|[_ Ha]]; [constructor|done].
  - intros t1 t2 Hsame H1 H2.
    apply mark_as_synced_call_ok in H1 as [-> _].
    apply mark_as_synced_call_ok in H2 as [-> _].
    by apply mark_as_synced_members.
  - intros t1 e H1 H2.
    destruct (mark_as_synced_call max_vars now (ids1 ++ ids2) t)
      as [e'|t'] eqn:Hcall; [by exists e'|].
    apply mark_as_synced_call_ok in Hcall as [_ Hbind].
    assert (Hb2 : ids2 = [] ∨ bindable max_vars ids2).
    { destruct Hbind as [Hnil|[Hlen Hall]].
      - apply app_eq_nil in Hnil as [_ ->]. by left.
      - rewrite length_app in Hlen. apply Forall_app in Hall as [_ Ha2].
        right. split; [lia|done]. }
    destruct Hb2 as [->|Hb2]; [done|].
    by rewrite (mark_as_synced_call_bindable _ _ _ _ Hb2) in H2.
Qed.

(** ** From the source row to the target row *)






Section EndToEnd.

Variable json_loads : string → option json.
Variable json_object : list (string * sqlval) → string.



End EndToEnd.

(** ** The further properties at the sample relation *)

Lemma fire_all_appends_in_order_witness :
  ∃ s', fire_all Codec.json_object Edge.two_captures Sample.empty_source
          = Ok s'
        ∧ pending_ids (cdc_rows s') = [1; 2]
        ∧ size (cdc_rows s') = 2%nat
        ∧ next_cdc_id s' = 3.
Proof.
  assert (Hrun : ∃ s', fire_all Codec.json_object Edge.two_captures
                         Sample.empty_source = Ok s').
  { vm_compute. eexists. reflexivity. }
  destruct Hrun as [s' Hrun]. exists s'. split; [exact Hrun|].
  destruct (fire_all_appends_in_order Codec.json_object Edge.two_captures
              Sample.empty_source s' Hrun) as (Hp & Hsize & Hnext & _).
  split; [exact Hp|]. split; [exact Hsize|exact Hnext].
Defined.

Lemma setup_trigger_based_cdc_creates_witness :
  plain_names "test_table" ["id"; "name"; "value"]
  ∧ is_Some (cat_tables Sample.catalog0 !! "test_table")
  ∧ no_name_like (cat_triggers Sample.catalog0) "test_table_insert_trigger"
  ∧ (run (setup_trigger_based_cdc "test_table" ["id"; "name"; "value"])
       Sample.catalog0).2 = Ok ()
  ∧ cat_triggers
      (run (setup_trigger_based_cdc "test_table" ["id"; "name"; "value"])
         Sample.catalog0).1 !! "test_table_insert_trigger"
    = Some Sample.insert_trigger.
Proof.
  assert (Hplain : plain_names "test_table" ["id"; "name"; "value"]).
  { apply (bool_decide_unpack _). vm_compute. exact I. }
  assert (Htable : is_Some (cat_tables Sample.catalog0 !! "test_table")).
  { exists Sample.columns. vm_compute. reflexivity. }
  assert (Hfresh : no_name_like (cat_triggers Sample.catalog0)
                     "test_table_insert_trigger").
  { apply (bool_decide_unpack _). vm_compute. exact I. }
  split; [exact Hplain|]. split; [exact Htable|]. split; [exact Hfresh|].
  rewrite (setup_trigger_based_cdc_creates "test_table" "id"
             ["name"; "value"] Sample.catalog0 Hplain Htable);
    [|apply (bool_decide_unpack _); vm_compute; exact I..].
  split; [reflexivity|]. vm_compute. reflexivity.
Defined.

Lemma setup_trigger_based_cdc_keeps_first_witness :
  plain_names "test_table" ["value"]
  ∧ run (setup_trigger_based_cdc "test_table" Sample.columns) Sample.catalog0
    = (Sample.catalog1, Ok ())
  ∧ run (setup_trigger_based_cdc "test_table" ["value"]) Sample.catalog1
    = (Sample.catalog1, Ok ()).
Proof.
  assert (Hplain : plain_names "test_table" ["value"]).
  { apply (bool_decide_unpack _). vm_compute. exact I. }
  assert (Hfirst : run (setup_trigger_based_cdc "test_table" Sample.columns)
                     Sample.catalog0 = (Sample.catalog1, Ok ())).
  { vm_compute. reflexivity. }
  split; [exact Hplain|]. split; [exact Hfirst|].
  apply (setup_trigger_based_cdc_keeps_first "test_table" Sample.columns
           ["value"] Sample.catalog0 Sample.catalog1);
    [exact Hplain|discriminate|exact Hfirst].
Defined.




Lemma unknown_operation_is_counted_witness :
  apply_change Edge.lowercase_change Sample.filled_table
    = Ok Sample.filled_table
  ∧ replicate_loop [Edge.lowercase_change] Sample.filled_table []
    = ([7], Sample.filled_table).
Proof.
  destruct (unknown_operation_is_counted Edge.lowercase_change
              Sample.filled_table [] [])
    as [Happly Hloop]; [discriminate..|].
  split; [exact Happly|]. rewrite Hloop. reflexivity.
Defined.

Lemma update_and_delete_are_idempotent_witness :
  ∃ t1, apply_change Sample.update_change Sample.filled_table = Ok t1
        ∧ apply_change Sample.update_change t1 = Ok t1
        ∧ (length (t_rows t1) ≤ 2)%nat.
Proof.
  assert (Hfirst : ∃ t1, apply_change Sample.update_change
                           Sample.filled_table = Ok t1).
  { vm_compute. eexists. reflexivity. }
  destruct Hfirst as [t1 Hfirst]. exists t1. split; [exact Hfirst|].
  destruct (update_and_delete_are_idempotent Sample.update_change
              Sample.filled_table t1) as (Hagain & _ & _ & Hlen & _);
    [left; reflexivity|exact Hfirst|].
  split; [exact Hagain|exact Hlen].
Defined.

Lemma insert_without_key_appends_witness :
  bind_params Edge.keyless_image = Ok Edge.keyless_row
  ∧ max_rowid Edge.negative_table = -5
  ∧ ∃ t1 t2,
      apply_change Edge.keyless_change Edge.negative_table = Ok t1
      ∧ apply_change Edge.keyless_change t1 = Ok t2
      ∧ t_rows t2
        = t_rows Edge.negative_table
          ++ [<["id" := SInt (-4)]> Edge.keyless_row;
              <["id" := SInt (-3)]> Edge.keyless_row].
Proof.
  assert (Hbind : bind_params Edge.keyless_image = Ok Edge.keyless_row).
  { vm_compute. reflexivity. }
  split; [exact Hbind|]. split; [vm_compute; reflexivity|].
  destruct (insert_without_key_appends Edge.keyless_change
              Edge.negative_table Edge.keyless_image Edge.keyless_row)
    as (t1 & t2 & H1 & H2 & _ & Hrows).
  - reflexivity.
  - reflexivity.
  - intros Heq. apply (f_equal (λ m : gmap string json, m !! "name")) in Heq.
    vm_compute in Heq. discriminate Heq.
  - apply (bool_decide_unpack _). vm_compute. exact I.
  - exact Hbind.
  - vm_compute. reflexivity.
  - vm_compute. reflexivity.
  - exists t1, t2. split; [exact H1|]. split; [exact H2|].
    rewrite Hrows. vm_compute. reflexivity.
Defined.

Lemma apply_change_raises_witness :
  no_such_column Sample.target_table "extra"
  ∧ apply_change Edge.wide_change Sample.target_table = Raise DatabaseError
  ∧ apply_change Sample.users_update_change Sample.users_replica1
    = Raise KeyError.
Proof.
  assert (Hno : no_such_column Sample.target_table "extra").
  { apply (bool_decide_unpack _). vm_compute. exact I. }
  split; [exact Hno|].
  destruct (apply_change_raises Edge.wide_change Sample.target_table)
    as (_ & _ & _ & _ & Hinsert & _).
  destruct (apply_change_raises Sample.users_update_change
              Sample.users_replica1) as (_ & Hkey & _).
  split.
  - apply (Hinsert Edge.wide_image "extra");
      [reflexivity|reflexivity
      |apply (bool_decide_unpack _); vm_compute; exact I
      |exists (JNum 7); vm_compute; reflexivity
      |exact Hno].
  - apply (Hkey (<["user_id" := JNum 1]> (<["name" := JStr "bea"]> ∅)));
      [reflexivity|reflexivity|vm_compute; reflexivity].
Defined.

Lemma mark_as_synced_composes_witness :
  ∃ t1 t2,
    mark_as_synced_call 999 10 [1] (cdc_rows Sample.source) = Ok t1
    ∧ mark_as_synced_call 999 10 [2; 3] t1 = Ok t2
    ∧ mark_as_synced_call 999 10 [1; 2; 3] (cdc_rows Sample.source) = Ok t2
    ∧ ∃ e, mark_as_synced_call 999 10 [1; 2 ^ 63] (cdc_rows Sample.source)
           = Raise e.
Proof.
  destruct (mark_as_synced_composes 999 10 [1] [2; 3]
              (cdc_rows Sample.source)) as (_ & Hjoin & _).
  destruct (mark_as_synced_composes 999 10 [1] [2 ^ 63]
              (cdc_rows Sample.source)) as (_ & _ & _ & Hraise).
  exists (mark_as_synced 10 [1] (cdc_rows Sample.source)),
         (mark_as_synced 10 [2; 3]
            (mark_as_synced 10 [1] (cdc_rows Sample.source))).
  assert (H1 : mark_as_synced_call 999 10 [1] (cdc_rows Sample.source)
               = Ok (mark_as_synced 10 [1] (cdc_rows Sample.source))).
  { vm_compute. reflexivity. }
  assert (H2 : mark_as_synced_call 999 10 [2; 3]
                 (mark_as_synced 10 [1] (cdc_rows Sample.source))
               = Ok (mark_as_synced 10 [2; 3]
                       (mark_as_synced 10 [1] (cdc_rows Sample.source)))).
  { vm_compute. reflexivity. }
  split; [exact H1|]. split; [exact H2|]. split.
  - apply (Hjoin _ _ H1 H2). vm_compute. discriminate.
  - apply (Hraise _ OverflowError H1). vm_compute. reflexivity.
Defined.


